(** * lh-audit: the bulk Lighthouse audit script, embedded and verified

    A shallow embedding of [bin/lh-audit.js].  The script walks a list of
    URLs; for each URL it runs three Lighthouse audits, appends one CSV row
    per audit, aggregates the successful audits with a geometric mean and
    appends one more row for the aggregate.  It only works during office
    hours in Sydney: outside of them it parks the loop index in a
    one-minute interval timer that restarts the loop when the window
    reopens.

    Modelling conventions.
    - A JavaScript number is a double.  The model keeps the reals ([R]) as
      the carrier and rounds where the script computes: [double x] is the
      double nearest to [x] (a tie going to the even mantissa), which is
      what a numeric literal denotes and which leaves a double as it is;
      the product, the quotient, the comparisons and [toFixed] of the
      formatting functions take their operands as doubles, and the product
      and the quotient round their result.  Only finite numbers are
      modelled: no [NaN], no infinities, and no magnitudes from 1e21 on,
      where JavaScript prints a number with an exponent.  The quotient of
      [formatBytes] and the geometric mean, whose code is not part of the
      repository, are taken over the reals.
    - A JavaScript object used as a string-keyed dictionary (the condensed
      report, the geometric-mean object) is a [gmap string R]; an object
      literal that is only handed to the CSV writer is the list of its
      properties.
    - Effects are explicit: every function that touches the outside world
      is a state transformer over a [world] that carries the effect trace,
      the active interval timers and the positions in the two input
      streams (answers of the audit engine, readings of the wall clock).
    - An [async] function is run to its end in one go, and the trace lists
      the effects in the order in which the program issues them.  The only
      other activity of the program is the callback of an interval, and no
      interval is set while a loop is running
      ([doScript_from_sets_interval_last]).
    - Launching Chrome, writing a CSV record and saving assets do not fail.
    - The period of the interval (one minute) is not modelled: an interval
      that is set may fire at any turn of the event loop. *)

From Stdlib Require Import Reals Lra Lia ZArith String Ascii.
From stdpp Require Import gmap strings list pretty relations.

(** ** JavaScript built-ins used by the script *)

Module JS.

Local Open Scope R_scope.

(** *** Doubles

    The binary64 format: a mantissa of 53 bits times a power of two, the
    exponent of the leading bit ranging from -1022 to 1023; below 2^-1022
    the doubles are the multiples of 2^-1074. *)

Definition bpow (e : Z) : R := powerRZ 2 e.

(** The exponent of the binade of [x]: the [e] with [2^e <= |x| < 2^(e+1)],
    and -1022 for the numbers below 2^-1022. *)
Definition exponent (x : R) : Z :=
  Z.max (-1022) (Int_part (ln (Rabs x) / ln 2)).

(** The integer nearest to [r]; of the two integers nearest to a half, the
    even one. *)
Definition ties_to_even (r : R) : Z :=
  let n := Int_part r in
  if Rlt_dec (r - IZR n) (/ 2) then n
  else if Rlt_dec (/ 2) (r - IZR n) then (n + 1)%Z
  else if Z.even n then n else (n + 1)%Z.

(** The double nearest to [x]: [x] counted in units in the last place of
    its binade, rounded to an integer. *)
Definition double (x : R) : R :=
  let ulp := bpow (exponent x - 52) in
  IZR (ties_to_even (x / ulp)) * ulp.

(** [x * y] and [x / y] on numbers. *)
Definition multiply (x y : R) : R := double (double x * double y).
Definition divide (x y : R) : R := double (double x / double y).

(** [Math.floor]: the largest integer below or equal to [x]. *)
Definition Math_floor (x : R) : Z := Int_part x.

(** [Math.round]: the nearest integer, ties towards plus infinity. *)
Definition Math_round (x : R) : Z := Int_part (x + / 2).

(** A template literal [`${n}`] whose value is an integer. *)
Definition show (n : Z) : string := pretty n.

(** [s.padStart(targetLength, fill)] with a one-character filler. *)
Definition padStart (targetLength : nat) (fill : ascii) (s : string) : string :=
  string_of_list_ascii (replicate (targetLength - String.length s) fill) +:+ s.

(** [x.toFixed(digits)] for a double [x] that is not negative and below
    1e21: with [n] the integer for which [n / 10^digits - x] is nearest to
    zero ([x] being the exact value of the double, and [n] the larger one
    when there are two), the digits of [n] with a decimal point before the
    last [digits] of them.  From 1e21 on JavaScript switches to the
    notation with an exponent, which is not modelled. *)
Definition toFixed_abs (x : R) (digits : nat) : string :=
  let n := Int_part (x * 10 ^ digits + / 2) in
  let m := pretty n in
  let m := padStart (S digits) "0" m in
  match digits with
  | O => m
  | _ =>
      let k := String.length m in
      substring 0 (k - digits) m +:+ "." +:+ substring (k - digits) digits m
  end.

(** [x.toFixed(digits)]: the receiver is a double. *)
Definition toFixed (x : R) (digits : nat) : string :=
  let x := double x in
  if Rlt_dec x 0 then "-" +:+ toFixed_abs (- x) digits
  else toFixed_abs x digits.

(** [parseInt] on the strings the script feeds it: the leading run of
    decimal digits; [None] stands for [NaN] (no digit at the start). *)
Definition digit_of (c : ascii) : option Z :=
  let n := nat_of_ascii c in
  if (48 <=? n)%nat && (n <=? 57)%nat then Some (Z.of_nat (n - 48)) else None.

Fixpoint parse_digits (acc : option Z) (s : string) : option Z :=
  match s with
  | EmptyString => acc
  | String c s' =>
      match digit_of c with
      | Some d => parse_digits (Some (10 * default 0 acc + d)%Z) s'
      | None => acc
      end
  end.

Definition parseInt (s : string) : option Z := parse_digits None s.

(** Property access [o[k]] on a dictionary of numbers.  Every object the
    script reads has all the keys it asks for; the model returns 0 where
    JavaScript would return [undefined]. *)
Definition prop (o : gmap string R) (k : string) : R := default 0 (o !! k).

End JS.

Import JS.

(** ** moment-timezone: what the script reads from a date *)

(** [moment().tz("Australia/Sydney")]: the civil time in Sydney.  The script
    reads two things from it: [format("H")], the hour of the day without
    padding, and [weekday()], the day of the week counted from Sunday (the
    default locale). *)
Record moment := Moment {
  hour_of_day : nat;   (* 0 .. 23 *)
  day_of_week : nat;   (* 0 = Sunday .. 6 = Saturday *)
}.

Definition format_H (date : moment) : string := pretty (hour_of_day date).
Definition weekday (date : moment) : Z := Z.of_nat (day_of_week date).

(** The body of [checkTime] once "now" has been read:
    [hour >= 9 && hour <= 18 && weekday !== 0 && weekday !== 6].
    A comparison with [NaN] is false. *)
Definition checkTime_at (date : moment) : bool :=
  let hour := parseInt (format_H date) in
  let wd := weekday date in
  match hour with
  | Some h => (9 <=? h)%Z && (h <=? 18)%Z && negb (wd =? 0)%Z && negb (wd =? 6)%Z
  | None => false
  end.

(** ** colors/safe: terminal styles *)

Inductive style := red | yellow | green | italic | bold.

(** ** Lighthouse results *)

Record audit := Audit {
  numericValue : R;
  score : R;
}.

(** The part of a Lighthouse report ([results.lhr]) that the script reads. *)
Record lhr := Lhr {
  categories_performance_score : R;
  audits : string -> audit;
}.

Record lighthouse_results := Results {
  results_lhr : lhr;
  artifacts_BenchmarkIndex : string;   (* as rendered by a template literal *)
}.

(** [lighthouse(url, {port}, config)] either resolves with results or
    rejects with an error. *)
Inductive outcome :=
| Resolved (results : lighthouse_results)
| Rejected (error : string).

Definition condenseReport (results : lhr) : gmap string R :=
  <["performanceScore" := categories_performance_score results]>
  (<["firstContentfulPaint" := numericValue (audits results "first-contentful-paint")]>
  (<["firstContentfulPaintScore" := score (audits results "first-contentful-paint")]>
  (<["firstMeaningfulPaint" := numericValue (audits results "first-meaningful-paint")]>
  (<["firstMeaningfulPaintScore" := score (audits results "first-meaningful-paint")]>
  (<["speedIndex" := numericValue (audits results "speed-index")]>
  (<["speedIndexScore" := score (audits results "speed-index")]>
  (<["timeToInteractive" := numericValue (audits results "interactive")]>
  (<["timeToInteractiveScore" := score (audits results "interactive")]>
  (<["firstCpuIdle" := numericValue (audits results "first-cpu-idle")]>
  (<["firstCpuIdleScore" := score (audits results "first-cpu-idle")]>
  (<["totalByteWeight" := numericValue (audits results "total-byte-weight")]>
   ∅))))))))))).

(** ** Formatting *)

Section Formatting.

Local Open Scope R_scope.

(** The five style functions imported from colors/safe. *)
Variable paint : style -> string -> string.

Definition colorizeByScore (text : string) (score : R) : string :=
  if Rlt_dec (double 0.89) (double score) then paint green text
  else if Rlt_dec (double 0.49) (double score) then paint yellow text
  else paint red text.

Definition formatScore (score : R) (colorize : bool) : string :=
  let number := show (Math_floor (multiply score 100)) in
  if colorize then colorizeByScore (padStart 3 " " number) score
  else padStart 3 " " number.

Definition formatDuration (durationInMs : R) : string :=
  let seconds := divide durationInMs 1000 in
  toFixed seconds 2 +:+ " s".

Definition formatWeight (weight : R) : string := toFixed (multiply weight 100) 1.

Definition formatWeightedScore (score weight : R) : string :=
  let weightedScore := multiply score weight in
  formatWeight weightedScore +:+ "/" +:+ formatWeight weight.

Definition formatAudit (results : gmap string R) (auditName : string)
    (weight : R) (colorize : bool) : string :=
  let auditScore := prop results (auditName +:+ "Score") in
  let text := formatDuration (prop results auditName) +:+ " ("
              +:+ formatWeightedScore auditScore weight +:+ ")" in
  if colorize then colorizeByScore text auditScore else text.

Definition formatBytes (bytes : R) : string :=
  let kiloBytes := Math_round (bytes / 1000) in
  let thousand := (kiloBytes / 1000)%Z in
  let hundred := show (Z.rem kiloBytes 1000) in
  if (thousand =? 0)%Z then hundred +:+ " KB"
  else show thousand +:+ "," +:+ padStart 3 "0" hundred +:+ " KB".

Definition oneliner (r : gmap string R) (url : string) : string :=
  String.concat ", "
    [ paint italic url;
      paint italic "p:" +:+ " " +:+ formatScore (prop r "performanceScore") true;
      paint italic "fcp:" +:+ " " +:+ formatAudit r "firstContentfulPaint" (divide 3 15) true;
      paint italic "fmp:" +:+ " " +:+ formatAudit r "firstMeaningfulPaint" (divide 1 15) true;
      paint italic "speed:" +:+ " " +:+ formatAudit r "speedIndex" (divide 4 15) true;
      paint italic "cpu:" +:+ " " +:+ formatAudit r "firstCpuIdle" (divide 2 15) true;
      paint italic "tti:" +:+ " " +:+ formatAudit r "timeToInteractive" (divide 5 15) true;
      paint italic "size:" +:+ " " +:+ formatBytes (prop r "totalByteWeight") ].

(** The record object that [addToLogs] hands to [csvWriter.writeRecords]:
    its properties in the order of the object literal. *)
Definition metricsRecord (r : gmap string R) (url type : string)
    : list (string * string) :=
  [ ("site", url);
    ("type", type);
    ("p", formatScore (prop r "performanceScore") false);
    ("fcp", formatAudit r "firstContentfulPaint" (divide 3 15) false);
    ("fmp", formatAudit r "firstMeaningfulPaint" (divide 1 15) false);
    ("speed", formatAudit r "speedIndex" (divide 4 15) false);
    ("cpu", formatAudit r "firstCpuIdle" (divide 2 15) false);
    ("tti", formatAudit r "timeToInteractive" (divide 5 15) false);
    ("size", formatBytes (prop r "totalByteWeight")) ].

(** The record object that [logError] hands to [csvWriter.writeRecords]. *)
Definition errorRecord (url : string) : list (string * string) :=
  [ ("site", url); ("type", "Error: site not loaded") ].

End Formatting.

(** ** Aggregation *)

Section Aggregation.

Local Open Scope R_scope.

Definition Rsum (xs : list R) : R := foldr Rplus 0 xs.
Definition Rprod (xs : list R) : R := foldr Rmult 1 xs.
Definition mean (xs : list R) : R := Rsum xs / INR (length xs).

(** A number that is zero. *)
Definition is_zero (x : R) : bool := if Req_dec_T x 0 then true else false.

(** Modelled from the spec: the npm package compute-gmean, which the
    script imports and whose code is not part of the repository.  The
    spec gives the geometric mean of a list of numbers that are not
    negative as the exponential of the mean of their logarithms,
    equivalently the n-th root of their product.  Where a value is 0 the
    product is 0, and so is its root (the logarithm is minus infinity
    there, which the reals do not have): the model returns 0.  The model
    says nothing useful about lists with a negative value, which the spec
    excludes ([ln] is 0 there). *)
Definition computeGmean (arr : list R) : R :=
  if existsb is_zero arr then 0 else exp (mean (ln <$> arr)).

(** [Object.keys(o)]; the order is immaterial to the script. *)
Definition Object_keys (o : gmap string R) : list string := (map_to_list o).*1.

(** [multipleResults.map(r => r[metric])] *)
Definition valuesOfMetric (multipleResults : list (gmap string R))
    (metric : string) : list R :=
  (fun r => prop r metric) <$> multipleResults.

(** The [gmean] object that [multipleTimes] builds: one entry per key of
    [multipleResults[0]].  [multipleTimes] only builds it for a list
    that is not empty. *)
Definition gmeanOf (multipleResults : list (gmap string R)) : gmap string R :=
  foldl (fun gmean metric =>
           <[metric := computeGmean (valuesOfMetric multipleResults metric)]> gmean)
        ∅ (Object_keys (default ∅ (head multipleResults))).

End Aggregation.

(** ** The outside world *)

Inductive event :=
| ChromeLaunch                                   (* chromeLauncher.launch *)
| ChromeKill                                     (* chrome.kill *)
| Lighthouse (url : string)                      (* one audit attempt *)
| ConsoleLog (line : string)                     (* console.log *)
| WriteRecords (record : list (string * string)) (* csvWriter.writeRecords([record]) *)
| SaveAssets (basename : string)                 (* assetSaver.saveAssets *)
| SetInterval (handle : nat) (ms : Z)            (* setInterval *)
| ClearInterval (handle : nat)                   (* clearInterval *)
| UnhandledRejection (reason : string)           (* a promise nobody awaits rejects *)
| OutputHelp                                     (* commander.outputHelp *)
| SetExitCode (code : Z).                        (* process.exitCode = code *)

(** The options object that commander passes to the action. *)
Record command := Command { storeLogs : bool }.

(** What the callback of an interval captures from [pauseScript]. *)
Record closure := Closure {
  pausePoint : nat;
  closure_cmd : command;
}.

Record world := World {
  audits_run : nat;               (* calls of lighthouse() so far *)
  clock_reads : nat;              (* evaluations of moment() so far *)
  timers : gmap nat closure;      (* the intervals that are set *)
  next_handle : nat;              (* the handle the next setInterval returns *)
  trace : list event;             (* the effects so far, oldest first *)
}.

Definition boot : world :=
  {| audits_run := 0; clock_reads := 0; timers := ∅; next_handle := 0; trace := [] |}.

Definition M (A : Type) : Type := world -> A * world.

Definition ret {A} (a : A) : M A := fun w => (a, w).

Definition bind {A B} (k : A -> M B) (m : M A) : M B :=
  fun w => let (a, w') := m w in k a w'.

#[global] Instance M_ret : MRet M := @ret.
#[global] Instance M_bind : MBind M := @bind.

Definition exec {A} (m : M A) (w : world) : world := snd (m w).
Definition eval {A} (m : M A) (w : world) : A := fst (m w).

Definition emit (e : event) : M unit :=
  fun w => (tt, {| audits_run := audits_run w; clock_reads := clock_reads w;
                   timers := timers w; next_handle := next_handle w;
                   trace := trace w ++ [e] |}).

(** [for (const x of xs) body], threading the variables the body updates. *)
Fixpoint for_of {A S} (xs : list A) (body : A -> S -> M S) (s : S) : M S :=
  match xs with
  | [] => ret s
  | x :: xs' => s' ← body x s; for_of xs' body s'
  end.

(** What an identifier of the script can be bound to. *)
Inductive binding :=
| BoundString (s : string)
| BoundReport (r : gmap string R)
| BoundOther.

(** The names declared at the top level of the module, and the globals of
    Node that the script mentions. *)
Definition module_names : list string :=
  [ "lighthouse"; "chromeLauncher"; "red"; "yellow"; "green"; "italic"; "bold";
    "path"; "fs"; "assetSaver"; "commander"; "computeGmean"; "createCsvWriter";
    "urlsToCheck"; "moment"; "lighthouseConfig"; "GMEAN_PREFIX"; "storedLogs";
    "csvWriter"; "runLighthouse"; "condenseReport"; "oneliner"; "addToLogs";
    "logError"; "formatScore"; "formatAudit"; "colorizeByScore"; "formatDuration";
    "formatWeightedScore"; "formatWeight"; "formatBytes"; "multipleTimes";
    "checkTime"; "doScript"; "pauseScript" ].

Definition node_globals : list string :=
  [ "require"; "process"; "console"; "Math"; "Object"; "Array"; "parseInt";
    "setInterval"; "clearInterval" ].

(** The identifiers visible inside [logError]: its parameter, then the
    module, then the globals. *)
Definition logError_scope (url : string) : gmap string binding :=
  <["url" := BoundString url]>
    (list_to_map ((fun x => (x, BoundOther)) <$> (module_names ++ node_globals))).

Definition GMEAN_PREFIX : string := "GMEAN: ".

(** [s.replace(/./g, " ")] on a string without line breaks. *)
Definition blank (s : string) : string :=
  string_of_list_ascii (replicate (String.length s) " "%char).

(** ** The script *)

Section Script.

Variable paint : style -> string -> string.

(** The list exported by [./urls-to-check]. *)
Variable urlsToCheck : list string.

(** The audit engine: what the [n]-th call of [lighthouse] answers. *)
Variable engine : nat -> string -> outcome.

(** The wall clock in Sydney: what the [n]-th evaluation of [moment()]
    reads. *)
Variable clock : nat -> moment.

(** [lighthouse(url, {port}, config).catch(error => console.log(error))]:
    the results, or [undefined] after the error has been printed. *)
Definition lighthouse (url : string) : M (option lighthouse_results) :=
  fun w =>
    let answer := engine (audits_run w) url in
    let w' := {| audits_run := S (audits_run w); clock_reads := clock_reads w;
                 timers := timers w; next_handle := next_handle w;
                 trace := trace w ++ [Lighthouse url] |} in
    match answer with
    | Resolved results => (Some results, w')
    | Rejected error => (None, exec (emit (ConsoleLog error)) w')
    end.

Definition addToLogs (r : gmap string R) (url type : string) : M unit :=
  emit (WriteRecords (metricsRecord paint r url type)).

(** The record is written first; the callback chained with [then] then
    evaluates [r.performanceScore].  A name that is not in scope raises
    a ReferenceError.  Nothing awaits or catches the promise of
    [logError], so the error surfaces as an unhandled rejection; the
    model follows a Node that reports unhandled rejections and goes on,
    as the loop of [multipleTimes] expects after a failed attempt.  The
    trace lists the rejection right after the write that leads to it. *)
Definition logError (url : string) : M unit :=
  emit (WriteRecords (errorRecord url));;
  match logError_scope url !! "r" with
  | Some (BoundReport r) =>
      emit (ConsoleLog ("Logged error " +:+
                        formatScore paint (prop r "performanceScore") false))
  | Some _ => emit (ConsoleLog "Logged error NaN")
  | None => emit (UnhandledRejection "ReferenceError: r is not defined")
  end.

Definition runLighthouse (lighthouseUrl : string) (storeLogs : bool)
    : M (option (gmap string R)) :=
  emit ChromeLaunch;;
  results ← lighthouse lighthouseUrl;
  match results with
  | Some results =>
      let condensedReport := condenseReport (results_lhr results) in
      addToLogs condensedReport lighthouseUrl "PARTIAL";;
      emit (ConsoleLog (blank GMEAN_PREFIX +:+
                        oneliner paint condensedReport lighthouseUrl));;
      (if storeLogs then emit (SaveAssets (artifacts_BenchmarkIndex results))
       else ret tt);;
      emit ChromeKill;;
      ret (Some condensedReport)
  | None =>
      logError lighthouseUrl;;
      emit ChromeKill;;
      ret None
  end.

Definition multipleTimes (url : string) (storeLogs : bool) : M unit :=
  multipleResults ←
    for_of (replicate 3 tt)
      (fun j multipleResults =>
         result ← runLighthouse url storeLogs;
         match result with
         | Some result => ret (multipleResults ++ [result])
         | None => ret multipleResults
         end) [];
  if (0 <? length multipleResults)%nat then
    let gmean := gmeanOf multipleResults in
    emit (ConsoleLog (paint bold GMEAN_PREFIX +:+ oneliner paint gmean url));;
    addToLogs gmean url "GMEAN"
  else ret tt.

Definition checkTime : M bool :=
  fun w =>
    (checkTime_at (clock (clock_reads w)),
     {| audits_run := audits_run w; clock_reads := S (clock_reads w);
        timers := timers w; next_handle := next_handle w; trace := trace w |}).

(** [setInterval(callback, 60000)]: the callback is [onInterval] below,
    closed over [interval], [pausePoint] and [cmd]. *)
Definition pauseScript (pausePoint : nat) (cmd : command) : M unit :=
  fun w =>
    let interval := next_handle w in
    (tt, {| audits_run := audits_run w; clock_reads := clock_reads w;
            timers := <[interval := Closure pausePoint cmd]> (timers w);
            next_handle := S interval;
            trace := trace w ++ [SetInterval interval 60000] |}).

(** The loop of [doScript] from index [i] on, [rest] being the URLs from
    [i] to the end of the list. *)
Fixpoint doScript_from (i : nat) (rest : list string) (cmd : command) : M unit :=
  match rest with
  | [] => ret tt
  | url :: rest' =>
      open ← checkTime;
      if (open : bool) then
        emit (ConsoleLog "It's a great time to run the script");;
        multipleTimes url (storeLogs cmd);;
        doScript_from (S i) rest' cmd
      else
        emit (ConsoleLog "Terrible time to run the script");;
        pauseScript i cmd
  end.

Definition doScript (startPoint : nat) (cmd : command) : M unit :=
  doScript_from startPoint (drop startPoint urlsToCheck) cmd.

Definition clearInterval (interval : nat) : M unit :=
  fun w =>
    (tt, {| audits_run := audits_run w; clock_reads := clock_reads w;
            timers := delete interval (timers w);
            next_handle := next_handle w;
            trace := trace w ++ [ClearInterval interval] |}).

(** The callback that [pauseScript] hands to [setInterval]. *)
Definition onInterval (interval : nat) (c : closure) : M unit :=
  open ← checkTime;
  if (open : bool) then
    clearInterval interval;;
    emit (ConsoleLog ("script resumed at:  " +:+ pretty (pausePoint c)));;
    doScript (pausePoint c) (closure_cmd c)
  else ret tt.

(** The action registered with commander, which calls it with the parsed
    options. *)
Definition action (cmd : option command) : M unit :=
  match cmd with
  | None => emit OutputHelp;; emit (SetExitCode 1)
  | Some cmd => doScript 0 cmd
  end.

(** The program run with the options [cmd]. *)
Definition main (cmd : command) : M unit := action (Some cmd).

(** One turn of the event loop after the main script has run: the
    interval [interval], which is set, fires. *)
Inductive fires (interval : nat) : world -> world -> Prop :=
| fires_set (w : world) (c : closure) :
    timers w !! interval = Some c ->
    fires interval w (exec (onInterval interval c) w).

Definition turn (w w' : world) : Prop := exists interval, fires interval w w'.

(** The worlds the program can be in between two turns. *)
Definition reachable (cmd : command) (w : world) : Prop :=
  rtc turn (exec (main cmd) boot) w.

End Script.

(** ** Reading a trace *)

(** The value of a property of a record object. *)
Fixpoint field (k : string) (record : list (string * string)) : option string :=
  match record with
  | [] => None
  | (k', v) :: rest => if String.eqb k k' then Some v else field k rest
  end.

(** The three kinds of rows in the CSV file, told apart by the TYPE column. *)
Inductive kind := kind_partial | kind_aggregate | kind_error.

Definition type_of_kind (k : kind) : string :=
  match k with
  | kind_partial => "PARTIAL"
  | kind_aggregate => "GMEAN"
  | kind_error => "Error: site not loaded"
  end.

Definition is_record (k : kind) (u : string) (record : list (string * string)) : bool :=
  bool_decide (field "site" record = Some u) &&
  bool_decide (field "type" record = Some (type_of_kind k)).

(** The records handed to the CSV writer, oldest first. *)
Definition written (t : list event) : list (list (string * string)) :=
  omap (fun e => match e with WriteRecords r => Some r | _ => None end) t.

(** How many rows of kind [k] for the site [u] a trace persists. *)
Definition persisted (k : kind) (u : string) (t : list event) : nat :=
  length (List.filter (is_record k u) (written t)).

(** The URLs audited, one entry per attempt, oldest first. *)
Definition attempted (t : list event) : list string :=
  omap (fun e => match e with Lighthouse u => Some u | _ => None end) t.

(** The lines printed on the console. *)
Definition printed (t : list event) : list string :=
  omap (fun e => match e with ConsoleLog l => Some l | _ => None end) t.

(** The handles of the intervals set, and of the intervals cleared. *)
Definition armed (t : list event) : list nat :=
  omap (fun e => match e with SetInterval h _ => Some h | _ => None end) t.

Definition cleared (t : list event) : list nat :=
  omap (fun e => match e with ClearInterval h => Some h | _ => None end) t.

(** The effects that a computation adds to the trace of [w]. *)
Definition effects {A} (m : M A) (w : world) : list event :=
  drop (length (trace w)) (trace (exec m w)).

(** The condensed report of an attempt, if it produced one. *)
Definition report_of (o : outcome) : option (gmap string R) :=
  match o with
  | Resolved results => Some (condenseReport (results_lhr results))
  | Rejected _ => None
  end.

(** The answers of the audit engine to three attempts in a row on [url],
    the first of which is call number [n]. *)
Definition answers (engine : nat -> string -> outcome) (n : nat) (url : string)
    : list outcome :=
  [engine n url; engine (S n) url; engine (S (S n)) url].

(** The condensed reports of the attempts that succeeded, in order. *)
Definition reports (os : list outcome) : list (gmap string R) := omap report_of os.

(** How many of the attempts failed. *)
Definition failures (os : list outcome) : nat := length os - length (reports os).

(** The errors of the attempts that failed, in order. *)
Definition error_of (o : outcome) : option string :=
  match o with
  | Resolved _ => None
  | Rejected error => Some error
  end.

Definition errors (os : list outcome) : list string := omap error_of os.

(** [w] after [n] more audits and the effects [evs]. *)
Definition extend (w : world) (n : nat) (evs : list event) : world :=
  {| audits_run := n + audits_run w; clock_reads := clock_reads w;
     timers := timers w; next_handle := next_handle w;
     trace := trace w ++ evs |}.

(** [w] after one more reading of the clock. *)
Definition tick (w : world) : world :=
  {| audits_run := audits_run w; clock_reads := S (clock_reads w);
     timers := timers w; next_handle := next_handle w; trace := trace w |}.

Section Expected.

Variable paint : style -> string -> string.

(** The effects of one call of [runLighthouse] on [url], by the answer of
    the audit engine. *)
Definition attempt_effects (url : string) (storeLogs : bool) (o : outcome)
    : list event :=
  match o with
  | Resolved results =>
      [ ChromeLaunch; Lighthouse url;
        WriteRecords (metricsRecord paint (condenseReport (results_lhr results))
                        url "PARTIAL");
        ConsoleLog (blank GMEAN_PREFIX +:+
                    oneliner paint (condenseReport (results_lhr results)) url) ]
      ++ (if storeLogs then [SaveAssets (artifacts_BenchmarkIndex results)] else [])
      ++ [ChromeKill]
  | Rejected error =>
      [ ChromeLaunch; Lighthouse url; ConsoleLog error;
        WriteRecords (errorRecord url);
        UnhandledRejection "ReferenceError: r is not defined";
        ChromeKill ]
  end.

(** The effects of the aggregation step of [multipleTimes] on the reports
    collected. *)
Definition aggregate_effects (url : string) (multipleResults : list (gmap string R))
    : list event :=
  if (0 <? length multipleResults)%nat then
    [ ConsoleLog (paint bold GMEAN_PREFIX +:+
                  oneliner paint (gmeanOf multipleResults) url);
      WriteRecords (metricsRecord paint (gmeanOf multipleResults) url "GMEAN") ]
  else [].

(** The effects of one call of [multipleTimes], by the answers to its
    attempts. *)
Definition batch_effects (url : string) (storeLogs : bool) (os : list outcome)
    : list event :=
  concat (attempt_effects url storeLogs <$> os) ++ aggregate_effects url (reports os).

End Expected.

(** Every URL of a list three times in a row: the attempts that the script
    makes on the URLs of the list. *)
Definition thrice (us : list string) : list string :=
  flat_map (fun u => [u; u; u]) us.

(** [w] after the loop has been suspended at index [i] for [cmd]. *)
Definition suspend (i : nat) (cmd : command) (w : world) : world :=
  {| audits_run := audits_run w; clock_reads := S (clock_reads w);
     timers := <[next_handle w := Closure i cmd]> (timers w);
     next_handle := S (next_handle w);
     trace := trace w ++ [ ConsoleLog "Terrible time to run the script";
                           SetInterval (next_handle w) 60000 ] |}.

(** [w] after the callback of the interval [h], which holds [c], has found
    the window open, cleared its interval and printed its line. *)
Definition resume (h : nat) (c : closure) (w : world) : world :=
  {| audits_run := audits_run w; clock_reads := S (clock_reads w);
     timers := delete h (timers w);
     next_handle := next_handle w;
     trace := trace w ++ [ ClearInterval h;
                           ConsoleLog ("script resumed at:  " +:+ pretty (pausePoint c)) ] |}.

(** The bookkeeping of interval handles: the handles set so far are
    0, 1, 2, ... in that order, no handle has been cleared twice, a handle
    that has been cleared is not set any more, and every handle that is
    set or has been cleared has been handed out. *)
Definition handles_in_order (w : world) : Prop :=
  armed (trace w) = seq 0 (next_handle w)
  /\ NoDup (cleared (trace w))
  /\ (forall h, h ∈ cleared (trace w) -> timers w !! h = None)
  /\ (forall h, h ∈ cleared (trace w) -> h < next_handle w)
  /\ (forall h, is_Some (timers w !! h) -> h < next_handle w).

(** The position of the loop between two turns of the event loop: the
    first [k] URLs have been audited, three times each and in order, and
    either the list is finished and no interval is set, or exactly one
    interval is set and holds [k] as the index to resume at. *)
Definition parked_at (urlsToCheck : list string) (cmd : command) (k : nat)
    (w : world) : Prop :=
  attempted (trace w) = thrice (take k urlsToCheck)
  /\ ((k = length urlsToCheck /\ timers w = ∅)
      \/ (k < length urlsToCheck
          /\ exists h, timers w = {[ h := Closure k cmd ]})).

(** ** A concrete run

    The scenario of the specification: two URLs, the first of which is
    audited with a score of 0.9 every time while the second never loads. *)

Module Scenario.

Definition plain : style -> string -> string := fun _ text => text.

Definition results_with_score (p : R) : lighthouse_results :=
  Results (Lhr p (fun _ => Audit 1000 p)) "1234".

Definition urls : list string := ["a.example"; "b.example"].

Definition engine (n : nat) (url : string) : outcome :=
  if String.eqb url "a.example" then Resolved (results_with_score 0.9)
  else Rejected "net::ERR_CONNECTION_REFUSED".



(** Wednesday, ten in the morning, at every reading. *)
Definition office_hours (n : nat) : moment := Moment 10 3.

(** Wednesday, eight in the evening, at the first two readings; Thursday,
    ten in the morning, from then on. *)
Definition overnight (n : nat) : moment :=
  if (n <? 2)%nat then Moment 20 3 else Moment 10 4.

Definition cmd : command := Command false.

(** The script started on Wednesday evening: the world after the main
    script, after the first firing of the interval, which still finds the
    window closed, and after the second, which finds it open. *)
Definition suspended : world :=
  exec (main plain urls engine overnight cmd) boot.

Definition still_suspended : world :=
  exec (onInterval plain urls engine overnight 0 (Closure 0 cmd)) suspended.

Definition resumed : world :=
  exec (onInterval plain urls engine overnight 0 (Closure 0 cmd)) still_suspended.

End Scenario.

(** ** Further readings of the inputs and of a trace *)



(** The launches ([true]) and kills ([false]) of Chrome, oldest first. *)
Definition browser (t : list event) : list bool :=
  omap (fun e => match e with
                 | ChromeLaunch => Some true
                 | ChromeKill => Some false
                 | _ => None
                 end) t.

(** The base names under which assets were saved. *)
Definition saved (t : list event) : list string :=
  omap (fun e => match e with SaveAssets b => Some b | _ => None end) t.

(** The reasons of the unhandled rejections. *)
Definition rejections (t : list event) : list string :=
  omap (fun e => match e with UnhandledRejection r => Some r | _ => None end) t.

(** How many rows of kind [k] a trace persists, whatever their site. *)
Definition rows (k : kind) (t : list event) : nat :=
  length (List.filter
            (fun record => bool_decide (field "type" record = Some (type_of_kind k)))
            (written t)).

(** The trace without its console lines. *)
Definition silent (t : list event) : list event :=
  List.filter (fun e => match e with ConsoleLog _ => false | _ => true end) t.

(** How many readings of the clock in a row, from reading [n] on and at
    most [len] of them, find the window open. *)
Fixpoint open_run (clock : nat -> moment) (n len : nat) : nat :=
  match len with
  | O => O
  | S len' => if checkTime_at (clock n) then S (open_run clock (S n) len') else O
  end.

(** How many of the first [n] readings of the clock find the window open. *)
Definition open_readings (clock : nat -> moment) (n : nat) : nat :=
  length (List.filter (fun i => checkTime_at (clock i)) (seq 0 n)).

(** The pieces a trace of the program is made of: a console line of the
    loop or of an interval, the setting or the clearing of an interval,
    and the effects of [multipleTimes] on a URL of the list. *)
Inductive segment (paint : style -> string -> string) (urlsToCheck : list string)
    (storeLogs : bool) : list event -> Prop :=
| segment_line (line : string) : segment paint urlsToCheck storeLogs [ConsoleLog line]
| segment_set (h : nat) : segment paint urlsToCheck storeLogs [SetInterval h 60000]
| segment_clear (h : nat) : segment paint urlsToCheck storeLogs [ClearInterval h]
| segment_batch (url : string) (os : list outcome) :
    url ∈ urlsToCheck ->
    length os = 3 ->
    segment paint urlsToCheck storeLogs (batch_effects paint url storeLogs os).


(** The intervals set ([true]) and cleared ([false]), with their handles,
    oldest first. *)
Definition intervals (t : list event) : list (bool * nat) :=
  omap (fun e => match e with
                 | SetInterval h _ => Some (true, h)
                 | ClearInterval h => Some (false, h)
                 | _ => None
                 end) t.

(** The first [n] intervals, each set and then cleared before the next. *)
Definition one_by_one (n : nat) : list (bool * nat) :=
  flat_map (fun h => [(true, h); (false, h)]) (seq 0 n).

(** Two worlds that differ in their console lines at most. *)
Definition same_but_lines (w1 w2 : world) : Prop :=
  audits_run w1 = audits_run w2
  /\ clock_reads w1 = clock_reads w2
  /\ timers w1 = timers w2
  /\ next_handle w1 = next_handle w2
  /\ silent (trace w1) = silent (trace w2).

(** The scenario on a Wednesday morning, run to its end, without and with
    the option to store logs. *)
Module Morning.

Definition finished : world :=
  exec (main Scenario.plain Scenario.urls Scenario.engine Scenario.office_hours
          Scenario.cmd) boot.

Definition storing : command := Command true.

Definition finished_storing : world :=
  exec (main Scenario.plain Scenario.urls Scenario.engine Scenario.office_hours
          storing) boot.

(** Colours as the codes of a terminal. *)
Definition ansi (c : style) (text : string) : string :=
  match c with
  | red => "[31m" | yellow => "[33m" | green => "[32m"
  | italic => "[3m" | bold => "[1m"
  end +:+ text +:+ "[0m".

End Morning.

(** ** The runtime and the rejection that nobody handles

    What Node does with a promise that rejects while nobody handles it
    depends on its mode [--unhandled-rejections].  In the mode [warn],
    the behaviour of Node up to version 14 by default, it reports the
    rejection and the process goes on.  In the mode [throw], the default
    from Node 15 on, it raises the rejection as an uncaught exception,
    which ends the process with exit code 1. *)
Inductive mode := warn | throw.

(** The calls that the script awaits.  While one of them is under way the
    event loop is running: that is when a callback of a promise that the
    script does not await, such as the one of [logError], can run, and
    when a rejection that nobody handles comes up. *)
Definition awaited (e : event) : bool :=
  match e with
  | ChromeLaunch | ChromeKill | Lighthouse _ | SaveAssets _ => true
  | _ => false
  end.

(** The trace without its unhandled rejections. *)
Definition quiet (t : list event) : list event :=
  List.filter (fun e => match e with UnhandledRejection _ => false | _ => true end) t.

(** The rejections on their way: for each, how many awaited calls still
    begin before the one during which it comes up, and its reason.  At an
    awaited call, [ripe] are the reasons of those that come up during it,
    and [later] are the others. *)
Definition ripe (pending : list (nat * string)) : list string :=
  omap (fun p => match p.1 with O => Some p.2 | S _ => None end) pending.

Definition later (pending : list (nat * string)) : list (nat * string) :=
  omap (fun p => match p.1 with O => None | S c => Some (c, p.2) end) pending.

(** What a turn of the event loop looks like from outside, given the
    effects [t] of the script in that turn.  In [t] a rejection is listed
    where it is caused, by the call of [logError]; the write of the row
    takes its time, and the callback that raises the error runs when the
    write has settled, during a call that the script awaits: for the
    rejection number [k] of the run, [lag k] awaited calls begin before
    that one.  The first awaited call after a call of [logError] is
    [chrome.kill()]: with a lag of 0 the rejection comes up while Chrome
    is being killed.  A rejection that is still on its way when the script
    has nothing left to do comes up then.  In the mode [warn] the
    rejection is reported where it comes up; in the mode [throw] the
    first one that comes up ends the process there, with exit code 1.
    The result is the effects that are seen and the exit code, if the
    process has been ended. *)
Fixpoint observe (m : mode) (lag : nat -> nat) (k : nat)
    (pending : list (nat * string)) (t : list event) : list event * option Z :=
  match t with
  | [] =>
      match m, pending with
      | throw, (_, reason) :: _ => ([UnhandledRejection reason], Some 1%Z)
      | _, _ => (UnhandledRejection <$> pending.*2, None)
      end
  | UnhandledRejection reason :: t' =>
      observe m lag (S k) (pending ++ [(lag k, reason)]) t'
  | e :: t' =>
      if awaited e then
        match m, ripe pending with
        | throw, reason :: _ => ([e; UnhandledRejection reason], Some 1%Z)
        | _, reasons =>
            let (seen, code) := observe m lag k (later pending) t' in
            (e :: (UnhandledRejection <$> reasons) ++ seen, code)
        end
      else
        let (seen, code) := observe m lag k pending t' in
        (e :: seen, code)
  end.

(** The index of the first attempt that failed, or the number of attempts
    when none did. *)
Fixpoint first_failure (os : list outcome) : nat :=
  match os with
  | Resolved _ :: os' => S (first_failure os')
  | _ => O
  end.

(** What is left of a batch after the call of [logError] of its first
    failed attempt, the rejections apart. *)
Definition after_failure (paint : style -> string -> string) (url : string) (storeLogs : bool) (os : list outcome)
    : list event :=
  quiet (concat (attempt_effects paint url storeLogs <$> drop (S (first_failure os)) os)
         ++ aggregate_effects paint url (reports os)).

(** ** Theorems *)

(** *** Built-ins *)

Lemma digit_of_pretty_N_char (d : N) :
  (d < 10)%N -> digit_of (pretty_N_char d) = Some (Z.of_N d).
Proof.
  intros Hd.
  assert (d = 0 ∨ d = 1 ∨ d = 2 ∨ d = 3 ∨ d = 4 ∨ d = 5
          ∨ d = 6 ∨ d = 7 ∨ d = 8 ∨ d = 9)%N as Hcases by lia.
  repeat (destruct Hcases as [-> | Hcases]; [reflexivity |]).
  subst d. reflexivity.
Qed.

Lemma parse_digits_pretty_N_go (x : N) :
  forall (s : string) (acc : option Z),
    (0 < x)%N ->
    exists p : Z,
      parse_digits acc (pretty_N_go x s)
      = parse_digits (Some (default 0 acc * p + Z.of_N x)%Z) s.
Proof.
  induction (N.lt_wf_0 x) as [x _ IH]. intros s acc Hpos.
  rewrite pretty_N_go_step by exact Hpos.
  assert (Hd : (x `mod` 10 < 10)%N) by (apply N.mod_lt; lia).
  assert (Hx : x = (10 * (x `div` 10) + x `mod` 10)%N) by (apply N.div_mod; lia).
  destruct (decide (x `div` 10 = 0)%N) as [Hq | Hq].
  - rewrite Hq, pretty_N_go_0. simpl.
    rewrite digit_of_pretty_N_char by exact Hd.
    exists 10%Z. do 2 f_equal. lia.
  - destruct (IH (x `div` 10)%N) with
      (s := String (pretty_N_char (x `mod` 10)) s) (acc := acc) as [p Hp].
    + apply N.div_lt; lia.
    + lia.
    + rewrite Hp. simpl. rewrite digit_of_pretty_N_char by exact Hd.
      exists (10 * p)%Z. do 2 f_equal. simpl. lia.
Qed.

(** Reading back a printed natural number gives the number. *)
Lemma parseInt_pretty_nat (n : nat) : parseInt (pretty n) = Some (Z.of_nat n).
Proof.
  unfold pretty, pretty_nat, pretty, pretty_N, parseInt.
  destruct (decide (N.of_nat n = 0%N)) as [H0 | H0].
  - simpl. f_equal. lia.
  - destruct (parse_digits_pretty_N_go (N.of_nat n) "" None) as [p Hp]; [lia |].
    rewrite Hp. simpl. f_equal. lia.
Qed.

Lemma checkTime_at_spec (date : moment) :
  checkTime_at date = true <->
  (9 <= hour_of_day date <= 18)%nat /\ day_of_week date <> 0%nat /\ day_of_week date <> 6%nat.
Proof.
  unfold checkTime_at, format_H, weekday. rewrite parseInt_pretty_nat.
  rewrite !andb_true_iff, !negb_true_iff, !Z.leb_le, !Z.eqb_neq. lia.
Qed.


(** *** The time window *)

(** C3: [checkTime] answers true exactly when the hour of the day read from
    the Sydney clock lies in the closed interval from 9 to 18 and the day of
    the week is neither 0 nor 6.  Hence it answers false on both weekend
    days at every hour, and on the other days before 9 and after 18. *)
Theorem checkTime_window (clock : nat -> moment) (w : world) :
  eval (checkTime clock) w = true <->
    ((9 <= hour_of_day (clock (clock_reads w)) <= 18)%nat
     /\ day_of_week (clock (clock_reads w)) <> 0%nat
     /\ day_of_week (clock (clock_reads w)) <> 6%nat).
Proof.
  unfold eval, checkTime. simpl. apply checkTime_at_spec.
Qed.

Example checkTime_monday_9 : checkTime_at (Moment 9 1) = true.
Proof. reflexivity. Qed.

Example checkTime_friday_18 : checkTime_at (Moment 18 5) = true.
Proof. reflexivity. Qed.

Example checkTime_friday_19 : checkTime_at (Moment 19 5) = false.
Proof. reflexivity. Qed.

Example checkTime_monday_8 : checkTime_at (Moment 8 1) = false.
Proof. reflexivity. Qed.

Example checkTime_sunday_noon : checkTime_at (Moment 12 0) = false.
Proof. reflexivity. Qed.

Example checkTime_saturday_noon : checkTime_at (Moment 12 6) = false.
Proof. reflexivity. Qed.

(** *** Doubles *)

Section Doubles.

Local Open Scope R_scope.

Lemma bpow_pos (e : Z) : 0 < bpow e.
Proof. apply powerRZ_lt. lra. Qed.

Lemma bpow_add (a b : Z) : bpow (a + b) = bpow a * bpow b.
Proof. apply powerRZ_add. lra. Qed.

Lemma bpow_IZR (k : Z) : (0 <= k)%Z -> bpow k = IZR (2 ^ k).
Proof.
  intros Hk. unfold bpow. rewrite <- (Z2Nat.id k) by exact Hk.
  rewrite <- pow_powerRZ, pow_IZR. reflexivity.
Qed.

Lemma bpow_opp (k : Z) : bpow (- k) = / bpow k.
Proof. unfold bpow. apply powerRZ_neg'. Qed.

Lemma bpow_lt (a b : Z) : (a < b)%Z -> bpow a < bpow b.
Proof.
  intros Hab. replace b with (a + (b - a))%Z by lia.
  rewrite bpow_add, (bpow_IZR (b - a)) by lia.
  assert (2 <= 2 ^ (b - a))%Z.
  { change 2%Z with (2 ^ 1)%Z at 1. apply Z.pow_le_mono_r; lia. }
  apply IZR_le in H. pose proof (bpow_pos a). nra.
Qed.

Lemma bpow_le (a b : Z) : (a <= b)%Z -> bpow a <= bpow b.
Proof.
  intros Hab. destruct (Z.eq_dec a b) as [-> | Hne]; [lra |].
  apply Rlt_le, bpow_lt. lia.
Qed.

Lemma bpow_exp (e : Z) : bpow e = exp (IZR e * ln 2).
Proof. unfold bpow. rewrite powerRZ_Rpower by lra. reflexivity. Qed.

Lemma ln_2_pos : 0 < ln 2.
Proof. pose proof ln_lt_2. lra. Qed.

Lemma floor_spec (x : R) : IZR (Int_part x) <= x < IZR (Int_part x) + 1.
Proof. destruct (base_Int_part x). lra. Qed.

Lemma floor_unique (x : R) (z : Z) : IZR z <= x < IZR z + 1 -> Int_part x = z.
Proof. intros H. symmetry. apply Int_part_spec. lra. Qed.

(** The binade of a number that is not zero. *)
Lemma binade (x : R) :
  x <> 0 ->
  let L := Int_part (ln (Rabs x) / ln 2) in
  bpow L <= Rabs x < bpow (L + 1).
Proof.
  intros Hx L. pose proof ln_2_pos as H2.
  assert (Habs : 0 < Rabs x) by (apply Rabs_pos_lt, Hx).
  destruct (floor_spec (ln (Rabs x) / ln 2)) as [Hlo Hhi]. fold L in Hlo, Hhi.
  assert (Hlo' : IZR L * ln 2 <= ln (Rabs x)).
  { apply Rmult_le_reg_r with (/ ln 2); [apply Rinv_0_lt_compat; lra |].
    replace (IZR L * ln 2 * / ln 2) with (IZR L) by (field; lra). exact Hlo. }
  assert (Hhi' : ln (Rabs x) < IZR (L + 1) * ln 2).
  { rewrite plus_IZR. apply Rmult_lt_reg_r with (/ ln 2); [apply Rinv_0_lt_compat; lra |].
    replace ((IZR L + 1) * ln 2 * / ln 2) with (IZR L + 1) by (field; lra). exact Hhi. }
  rewrite !bpow_exp. split.
  - rewrite <- (exp_ln (Rabs x)) at 1 by exact Habs.
    destruct (Req_dec (IZR L * ln 2) (ln (Rabs x))) as [-> | Hne]; [lra |].
    apply Rlt_le, exp_increasing. lra.
  - rewrite <- (exp_ln (Rabs x)) at 1 by exact Habs.
    apply exp_increasing. exact Hhi'.
Qed.

Lemma exponent_normal (x : R) (e : Z) :
  (-1022 <= e)%Z -> bpow e <= Rabs x < bpow (e + 1) -> exponent x = e.
Proof.
  intros He [Hlo Hhi]. pose proof ln_2_pos as H2. pose proof (bpow_pos e) as Hpos.
  unfold exponent. rewrite (floor_unique _ e); [lia |].
  assert (Hlnlo : IZR e * ln 2 <= ln (Rabs x)).
  { rewrite <- (ln_exp (IZR e * ln 2)), <- bpow_exp.
    destruct (Req_dec (bpow e) (Rabs x)) as [-> | Hne]; [lra |].
    apply Rlt_le, ln_increasing; lra. }
  assert (Hlnhi : ln (Rabs x) < (IZR e + 1) * ln 2).
  { rewrite <- plus_IZR, <- (ln_exp (IZR (e + 1) * ln 2)), <- bpow_exp.
    apply ln_increasing; lra. }
  split.
  - apply Rmult_le_reg_r with (ln 2); [lra |].
    replace (ln (Rabs x) / ln 2 * ln 2) with (ln (Rabs x)) by (field; lra). lra.
  - apply Rmult_lt_reg_r with (ln 2); [lra |].
    replace (ln (Rabs x) / ln 2 * ln 2) with (ln (Rabs x)) by (field; lra). lra.
Qed.

Lemma exponent_min (x : R) : (-1022 <= exponent x)%Z.
Proof. unfold exponent. lia. Qed.

(** A number lies below the top of its binade, and a number whose
    exponent is not the smallest one lies above the bottom of it. *)
Lemma exponent_top (x : R) : Rabs x < bpow (exponent x + 1).
Proof.
  destruct (Req_dec x 0) as [-> | Hx].
  - rewrite Rabs_R0. apply bpow_pos.
  - destruct (binade x Hx) as [_ Hhi].
    eapply Rlt_le_trans; [exact Hhi |]. apply bpow_le. unfold exponent. lia.
Qed.

Lemma exponent_bottom (x : R) :
  (-1022 < exponent x)%Z -> x <> 0 -> bpow (exponent x) <= Rabs x.
Proof.
  intros He Hx. destruct (binade x Hx) as [Hlo _].
  unfold exponent in *.
  replace (Z.max (-1022) (Int_part (ln (Rabs x) / ln 2)))
    with (Int_part (ln (Rabs x) / ln 2)) by lia.
  exact Hlo.
Qed.

Lemma exponent_small (x : R) :
  x <> 0 -> Rabs x < bpow (-1022) -> exponent x = (-1022)%Z.
Proof.
  intros Hx Hsmall. destruct (binade x Hx) as [Hlo _].
  unfold exponent.
  destruct (Z_lt_le_dec (Int_part (ln (Rabs x) / ln 2)) (-1022)%Z) as [Hlt | Hge]; [lia |].
  apply bpow_le in Hge. lra.
Qed.


(** Rounding to the nearest integer, a tie going to the even one. *)
Lemma ties_to_even_near (r : R) : - / 2 <= IZR (ties_to_even r) - r <= / 2.
Proof.
  unfold ties_to_even. destruct (floor_spec r) as [Hlo Hhi].
  set (n := Int_part r) in *.
  destruct (Rlt_dec (r - IZR n) (/ 2)) as [H1 | H1]; [lra |].
  destruct (Rlt_dec (/ 2) (r - IZR n)) as [H2 | H2].
  - rewrite plus_IZR. lra.
  - destruct (Z.even n); [| rewrite plus_IZR]; lra.
Qed.

Lemma ties_to_even_eq (r : R) (n : Z) :
  IZR n - / 2 < r < IZR n + / 2 -> ties_to_even r = n.
Proof.
  intros [Hlo Hhi]. pose proof (ties_to_even_near r) as Hnear.
  assert (Hlt : IZR (ties_to_even r) < IZR (n + 1)) by (rewrite plus_IZR; lra).
  assert (Hgt : IZR (n - 1) < IZR (ties_to_even r)) by (rewrite minus_IZR; lra).
  apply lt_IZR in Hlt, Hgt. lia.
Qed.

Lemma ties_to_even_IZR (k : Z) : ties_to_even (IZR k) = k.
Proof. apply ties_to_even_eq. lra. Qed.

Lemma ties_to_even_mono (r1 r2 : R) :
  r1 <= r2 -> (ties_to_even r1 <= ties_to_even r2)%Z.
Proof.
  intros Hr.
  destruct (Z_le_gt_dec (ties_to_even r1) (ties_to_even r2)) as [Hle | Hgt];
    [exact Hle | exfalso].
  pose proof (ties_to_even_near r1) as H1. pose proof (ties_to_even_near r2) as H2.
  assert (Hstep : IZR (ties_to_even r2) + 1 <= IZR (ties_to_even r1)).
  { rewrite <- plus_IZR. apply IZR_le. lia. }
  assert (Heq : r1 = r2) by lra.
  subst r2. lia.
Qed.

Lemma ties_to_even_le (r : R) (n : Z) : r <= IZR n -> (ties_to_even r <= n)%Z.
Proof.
  intros H. rewrite <- (ties_to_even_IZR n). apply ties_to_even_mono, H.
Qed.

Lemma ties_to_even_ge (r : R) (n : Z) : IZR n <= r -> (n <= ties_to_even r)%Z.
Proof.
  intros H. rewrite <- (ties_to_even_IZR n) at 1. apply ties_to_even_mono, H.
Qed.

(** *** The double nearest to a real *)

Lemma double_0 : double 0 = 0.
Proof.
  unfold double. replace (0 / bpow (exponent 0 - 52)) with 0 by (unfold Rdiv; ring).
  change 0 with (IZR 0) at 1. rewrite ties_to_even_IZR. simpl. ring.
Qed.

Lemma double_nonneg (x : R) : 0 <= x -> 0 <= double x.
Proof.
  intros Hx. unfold double. pose proof (bpow_pos (exponent x - 52)) as Hulp.
  apply Rmult_le_pos; [| lra]. apply IZR_le, ties_to_even_ge.
  apply Rmult_le_pos; [exact Hx |]. apply Rlt_le, Rinv_0_lt_compat, Hulp.
Qed.


Lemma bpow_52 (e : Z) : IZR (2 ^ 52) * bpow (e - 52) = bpow e.
Proof.
  rewrite <- (bpow_IZR 52) by lia. rewrite <- bpow_add. f_equal. lia.
Qed.

Lemma bpow_53 (e : Z) : IZR (2 ^ 53) * bpow (e - 52) = bpow (e + 1).
Proof.
  rewrite <- (bpow_IZR 53) by lia. rewrite <- bpow_add. f_equal. lia.
Qed.




(** Evaluating [double]: the binade of [x], and the integer that [x]
    counted in units in the last place is nearest to. *)
Lemma double_eq (x : R) (e n : Z) :
  (-1022 <= e)%Z ->
  bpow e <= Rabs x < bpow (e + 1) ->
  IZR n - / 2 < x / bpow (e - 52) < IZR n + / 2 ->
  double x = IZR n * bpow (e - 52).
Proof.
  intros He Hbin Hn. unfold double.
  rewrite (exponent_normal x e He Hbin), (ties_to_even_eq _ n Hn). reflexivity.
Qed.

(** Whole numbers up to 2^53 are doubles. *)
Lemma double_IZR (k : Z) : (0 <= k <= 2 ^ 53)%Z -> double (IZR k) = IZR k.
Proof.
  intros Hk. destruct (Z.eq_dec k 0%Z) as [-> | Hk0]; [apply double_0 |].
  assert (Hpos : (0 < k)%Z) by lia.
  destruct (Z.log2_spec k Hpos) as [Hlo Hhi].
  set (e := Z.log2 k) in *.
  assert (He : (0 <= e)%Z) by apply Z.log2_nonneg.
  assert (He53 : (e <= 53)%Z).
  { destruct (Z_le_gt_dec e 53%Z) as [H | H]; [exact H | exfalso].
    assert (2 ^ 54 <= 2 ^ e)%Z by (apply Z.pow_le_mono_r; lia).
    assert (2 ^ 53 < 2 ^ 54)%Z by (apply Z.pow_lt_mono_r; lia). lia. }
  assert (Hbin : bpow e <= Rabs (IZR k) < bpow (e + 1)).
  { rewrite Rabs_pos_eq by (apply IZR_le; lia).
    rewrite !bpow_IZR by lia. replace (e + 1)%Z with (Z.succ e) by lia.
    split; [apply IZR_le | apply IZR_lt]; assumption. }
  unfold double. rewrite (exponent_normal _ e ltac:(lia) Hbin).
  destruct (Z_le_gt_dec e 52%Z) as [Hsmall | Hbig].
  - assert (Hq : IZR k / bpow (e - 52) = IZR (k * 2 ^ (52 - e))).
    { rewrite mult_IZR, <- bpow_IZR by lia.
      replace (e - 52)%Z with (- (52 - e))%Z by lia. rewrite bpow_opp.
      unfold Rdiv. rewrite Rinv_inv. reflexivity. }
    rewrite Hq, ties_to_even_IZR, mult_IZR, <- bpow_IZR by lia.
    rewrite Rmult_assoc, <- bpow_add. replace (52 - e + (e - 52))%Z with 0%Z by lia.
    simpl. ring.
  - assert (e = 53)%Z by lia. subst e.
    assert (k = 2 ^ 53)%Z.
    { rewrite H in Hlo. lia. }
    rewrite H, H0.
    replace (IZR (2 ^ 53) / bpow (53 - 52)) with (IZR (2 ^ 52)).
    + rewrite ties_to_even_IZR. rewrite (bpow_IZR (53 - 52)) by lia.
      rewrite <- mult_IZR. reflexivity.
    + rewrite (bpow_IZR (53 - 52)) by lia.
      replace (2 ^ 53)%Z with (2 ^ 52 * 2 ^ (53 - 52))%Z by reflexivity.
      rewrite mult_IZR. field. apply not_0_IZR. discriminate.
Qed.

(** The doubles that are not negative: a mantissa of at most 53 bits times
    a power of two, the mantissa having its top bit set unless the
    exponent is the smallest one. *)
Lemma double_grid (m e : Z) :
  (-1022 <= e)%Z -> (0 <= m <= 2 ^ 53)%Z -> (e = -1022 \/ 2 ^ 52 <= m)%Z ->
  double (IZR m * bpow (e - 52)) = IZR m * bpow (e - 52).
Proof.
  intros He Hm Hnormal.
  set (ulp := bpow (e - 52)). assert (Hulp : 0 < ulp) by apply bpow_pos.
  destruct (Z.eq_dec m 0%Z) as [-> | Hm0].
  { rewrite Rmult_0_l. apply double_0. }
  assert (Hmpos : 0 < IZR m) by (apply IZR_lt; lia).
  assert (Hx : 0 < IZR m * ulp) by (apply Rmult_lt_0_compat; assumption).
  destruct (Z.eq_dec m (2 ^ 53)%Z) as [-> | Htop].
  - unfold ulp. rewrite bpow_53.
    rewrite <- (bpow_52 (e + 1)) at 2.
    apply double_eq.
    + lia.
    + rewrite Rabs_pos_eq by (apply Rlt_le, bpow_pos).
      split; [lra | apply bpow_lt; lia].
    + rewrite <- (bpow_52 (e + 1)). unfold Rdiv.
      rewrite Rmult_assoc, Rinv_r by (pose proof (bpow_pos (e + 1 - 52)); lra). lra.
  - destruct (Z_lt_le_dec m (2 ^ 52)%Z) as [Hsub | Hnorm].
    + assert (e = -1022)%Z by lia. subst e.
      unfold double. rewrite exponent_small.
      * fold ulp. unfold Rdiv. rewrite Rmult_assoc, Rinv_r by lra.
        rewrite Rmult_1_r, ties_to_even_IZR. reflexivity.
      * lra.
      * rewrite Rabs_pos_eq by lra. rewrite <- (bpow_52 (-1022)). fold ulp.
        apply Rmult_lt_compat_r; [exact Hulp |]. apply IZR_lt, Hsub.
    + apply double_eq.
      * exact He.
      * rewrite Rabs_pos_eq by lra. rewrite <- bpow_52, <- bpow_53. fold ulp.
        split.
        -- apply Rmult_le_compat_r; [lra |]. apply IZR_le, Hnorm.
        -- apply Rmult_lt_compat_r; [exact Hulp |]. apply IZR_lt. lia.
      * fold ulp. unfold Rdiv. rewrite Rmult_assoc, Rinv_r by lra. lra.
Qed.

(** What [double] returns is on that grid. *)
Lemma double_on_grid (x : R) :
  0 < x ->
  exists m : Z,
    double x = IZR m * bpow (exponent x - 52)
    /\ (0 <= m <= 2 ^ 53)%Z
    /\ (exponent x = -1022 \/ 2 ^ 52 <= m)%Z.
Proof.
  intros Hx. set (e := exponent x). set (ulp := bpow (e - 52)).
  assert (Hulp : 0 < ulp) by apply bpow_pos.
  exists (ties_to_even (x / ulp)). split; [reflexivity |].
  assert (Hq : x / ulp * ulp = x) by (field; lra).
  split; [split |].
  - apply ties_to_even_ge. simpl. apply Rmult_le_pos; [lra |].
    apply Rlt_le, Rinv_0_lt_compat, Hulp.
  - apply ties_to_even_le. pose proof (exponent_top x) as Htop.
    rewrite Rabs_pos_eq in Htop by lra. fold e in Htop.
    rewrite <- bpow_53 in Htop. fold ulp in Htop.
    apply Rmult_le_reg_r with ulp; [exact Hulp |]. lra.
  - destruct (Z.eq_dec e (-1022)%Z) as [Heq | Hne]; [left; exact Heq | right].
    apply ties_to_even_ge.
    pose proof (exponent_bottom x ltac:(pose proof (exponent_min x); fold e; lia)
                  ltac:(lra)) as Hbot.
    rewrite Rabs_pos_eq in Hbot by lra. fold e in Hbot.
    rewrite <- bpow_52 in Hbot. fold ulp in Hbot.
    apply Rmult_le_reg_r with ulp; [exact Hulp |]. lra.
Qed.

(** A double is the double nearest to itself. *)
Lemma double_idem (x : R) : 0 <= x -> double (double x) = double x.
Proof.
  intros Hx. destruct (Req_dec x 0) as [-> | Hx0].
  { rewrite double_0. apply double_0. }
  destruct (double_on_grid x ltac:(lra)) as (m & -> & Hm & Hnormal).
  apply double_grid; [apply exponent_min | exact Hm | exact Hnormal].
Qed.

Lemma bpow_neg_IZR (e : Z) : (e < 0)%Z -> bpow e = / IZR (2 ^ (- e)).
Proof.
  intros He. rewrite <- bpow_IZR by lia. rewrite <- bpow_opp. f_equal. lia.
Qed.

End Doubles.

(** Replace the powers of two of the goal by their values. *)
Ltac bpow_values :=
  repeat match goal with
    | |- context [bpow ?e] =>
        let v := eval vm_compute in (2 ^ e)%Z in
        lazymatch v with
        | 0%Z =>
            let v' := eval vm_compute in (2 ^ (- e))%Z in
            rewrite (bpow_neg_IZR e) by lia; change (2 ^ (- e))%Z with v'
        | _ => rewrite (bpow_IZR e) by lia; change (2 ^ e)%Z with v
        end
    end.

(** Evaluate [double x] for a positive [x] in the binade [e] that is
    nearest to [n] units in the last place. *)
Ltac double_at x e n :=
  rewrite (double_eq x e n);
  [ | lia
    | rewrite Rabs_pos_eq by lra; bpow_values; lra
    | bpow_values; lra ].

(** *** Rendering a score *)

Section Scores.

Local Open Scope R_scope.


Lemma Math_floor_unique (x : R) (z : Z) : IZR z <= x < IZR z + 1 -> Math_floor x = z.
Proof.
  intros H. unfold Math_floor. symmetry. apply Int_part_spec. lra.
Qed.




End Scores.

Section ScoreRendering.

Local Open Scope R_scope.

Variable paint : style -> string -> string.





Lemma multiply_100 (s : R) : multiply s 100 = double (double s * 100).
Proof. unfold multiply. rewrite (double_IZR 100) by lia. reflexivity. Qed.


End ScoreRendering.

Section ScoreExamples.

Local Open Scope R_scope.

Lemma double_029 : double 0.29 = 5224175567749775 / 18014398509481984.
Proof.
  double_at 0.29 (-2)%Z 5224175567749775%Z. bpow_values. lra.
Qed.

Lemma double_03 : double 0.3 = 5404319552844595 / 18014398509481984.
Proof.
  double_at 0.3 (-2)%Z 5404319552844595%Z. bpow_values. lra.
Qed.

(** 0.29 * 100 is 28.999999999999996, and 0.3 * 100 is 30. *)
Lemma multiply_029_100 : multiply 0.29 100 = 8162774324609023 / 281474976710656.
Proof.
  rewrite multiply_100, double_029.
  double_at (5224175567749775 / 18014398509481984 * 100) 4%Z 8162774324609023%Z.
  bpow_values. lra.
Qed.

Lemma multiply_03_100 : multiply 0.3 100 = 30.
Proof.
  rewrite multiply_100, double_03.
  double_at (5404319552844595 / 18014398509481984 * 100) 4%Z 8444249301319680%Z.
  bpow_values. lra.
Qed.

Example formatScore_029 : formatScore (fun _ text => text) 0.29 false = " 28".
Proof.
  unfold formatScore. rewrite multiply_029_100.
  rewrite (Math_floor_unique _ 28) by lra. reflexivity.
Qed.

Example formatScore_03 : formatScore (fun _ text => text) 0.3 false = " 30".
Proof.
  unfold formatScore. rewrite multiply_03_100.
  rewrite (Math_floor_unique _ 30) by lra. reflexivity.
Qed.

End ScoreExamples.

(** C10 as stated fails.  Read on decimals: the score 0.29 is rendered as
    28, while the floor of 0.29 * 100 is 29.  Read on doubles: the score
    0.3, which as a double lies below 0.3, is rendered as 30, while the
    floor of a hundred times that double is 29. *)
Lemma formatScore_is_not_the_floor :
  (formatScore (fun _ text => text) 0.29 false = " 28"
   /\ padStart 3 " " (show (Math_floor (0.29 * 100))) = " 29")
  /\ (formatScore (fun _ text => text) 0.3 false = " 30"
      /\ padStart 3 " " (show (Math_floor (double 0.3 * 100))) = " 29").
Proof.
  split; split.
  - apply formatScore_029.
  - rewrite (Math_floor_unique _ 29) by lra. reflexivity.
  - apply formatScore_03.
  - rewrite double_03, (Math_floor_unique _ 29) by lra. reflexivity.
Qed.


(** Evaluate the innermost [double] of the goal. *)
Ltac double_here e n :=
  match goal with
  | |- context [double ?x] =>
      lazymatch x with
      | context [double _] => fail
      | _ => double_at x e n; bpow_values
      end
  end.

(** *** The other columns, on the example of the README *)

Section Columns.

Local Open Scope R_scope.

Lemma Int_part_is (x : R) (z : Z) : IZR z <= x < IZR z + 1 -> Int_part x = z.
Proof. apply Math_floor_unique. Qed.

Lemma toFixed_nonneg (x : R) (digits : nat) :
  0 <= x -> toFixed x digits = toFixed_abs (double x) digits.
Proof.
  intros Hx. unfold toFixed. pose proof (double_nonneg x Hx).
  destruct (Rlt_dec (double x) 0) as [Hneg | _]; [lra | reflexivity].
Qed.

(** The receiver of [toFixed] in the script is a double already. *)
Lemma toFixed_double (x : R) (digits : nat) :
  0 <= x -> toFixed (double x) digits = toFixed_abs (double x) digits.
Proof.
  intros Hx. rewrite toFixed_nonneg by (apply double_nonneg, Hx).
  rewrite double_idem by exact Hx. reflexivity.
Qed.

Lemma divide_1000 (x : R) : divide x 1000 = double (double x / 1000).
Proof. unfold divide. rewrite (double_IZR 1000) by lia. reflexivity. Qed.

(** [formatDuration] of a whole number of milliseconds, given the double
    that the quotient rounds to. *)
Ltac duration e n z :=
  unfold formatDuration; rewrite divide_1000;
  rewrite double_IZR by lia;
  rewrite toFixed_double by lra;
  double_here e n;
  unfold toFixed_abs; rewrite (Int_part_is _ z) by (simpl pow; lra).

Example formatDuration_7450 : formatDuration 7450 = "7.45 s".
Proof. duration 2%Z 8387954305977549%Z 745%Z. reflexivity. Qed.

Example formatDuration_80 : formatDuration 80 = "0.08 s".
Proof. duration (-4)%Z 5764607523034235%Z 8%Z. reflexivity. Qed.

(** The quotients 1005 / 1000 and 15 / 1000 round to doubles below 1.005
    and below 0.015, which [toFixed] then rounds down. *)
Example formatDuration_1005 : formatDuration 1005 = "1.00 s".
Proof. duration 0%Z 4526117625507348%Z 100%Z. reflexivity. Qed.

Example formatDuration_15 : formatDuration 15 = "0.01 s".
Proof. duration (-7)%Z 8646911284551352%Z 1%Z. reflexivity. Qed.

Lemma multiply_nonneg (x y : R) : 0 <= x -> 0 <= y -> 0 <= multiply x y.
Proof.
  intros Hx Hy. apply double_nonneg, Rmult_le_pos; apply double_nonneg; assumption.
Qed.

Lemma formatWeight_nonneg (weight : R) :
  0 <= weight ->
  formatWeight weight = toFixed_abs (double (double weight * 100)) 1.
Proof.
  intros Hw. unfold formatWeight. rewrite multiply_100.
  apply toFixed_double. pose proof (double_nonneg weight Hw). lra.
Qed.

Example formatWeight_cpu : formatWeight (2 / 15) = "13.3".
Proof.
  rewrite formatWeight_nonneg by lra.
  double_here (-3)%Z 4803839602528529%Z. double_here 3%Z 7505999378950827%Z.
  unfold toFixed_abs. rewrite (Int_part_is _ 133) by (simpl pow; lra). reflexivity.
Qed.

Example formatWeightedScore_cpu : formatWeightedScore 0.38 (2 / 15) = "5.1/13.3".
Proof.
  unfold formatWeightedScore.
  rewrite !formatWeight_nonneg by (try apply multiply_nonneg; lra).
  unfold multiply.
  double_at (2 / 15) (-3)%Z 4803839602528529%Z. bpow_values.
  double_at 0.38 (-2)%Z 6845471433603154%Z. bpow_values.
  double_here (-5)%Z 7301836195843364%Z.
  double_here (-5)%Z 7301836195843364%Z.
  double_here 2%Z 5704559528002628%Z.
  double_here 3%Z 7505999378950827%Z.
  unfold toFixed_abs.
  rewrite (Int_part_is _ 51) by (simpl pow; lra).
  rewrite (Int_part_is _ 133) by (simpl pow; lra). reflexivity.
Qed.

(** Half of the weight 0.003 is shown as 0.1, not as 0.2: the product
    0.0015 * 100 is a double below 0.15. *)
Example formatWeightedScore_half : formatWeightedScore 0.5 0.003 = "0.1/0.3".
Proof.
  unfold formatWeightedScore.
  rewrite !formatWeight_nonneg by (try apply multiply_nonneg; lra).
  unfold multiply.
  double_at 0.003 (-9)%Z 6917529027641082%Z. bpow_values.
  double_at 0.5 (-1)%Z 4503599627370496%Z. bpow_values.
  double_here (-10)%Z 6917529027641082%Z.
  double_here (-10)%Z 6917529027641082%Z.
  double_here (-3)%Z 5404319552844595%Z.
  double_here (-2)%Z 5404319552844595%Z.
  unfold toFixed_abs.
  rewrite (Int_part_is _ 1) by (simpl pow; lra).
  rewrite (Int_part_is _ 3) by (simpl pow; lra). reflexivity.
Qed.

Example formatBytes_small : formatBytes 45499 = "45 KB".
Proof.
  unfold formatBytes, Math_round. rewrite (Int_part_is _ 45) by lra. reflexivity.
Qed.

Example formatBytes_large : formatBytes 1234567 = "1,235 KB".
Proof.
  unfold formatBytes, Math_round. rewrite (Int_part_is _ 1235) by lra. reflexivity.
Qed.

Example formatBytes_padded : formatBytes 2007500 = "2,008 KB".
Proof.
  unfold formatBytes, Math_round. rewrite (Int_part_is _ 2008) by lra. reflexivity.
Qed.

End Columns.

(** *** The geometric mean *)

Section GeometricMean.

Local Open Scope R_scope.

Lemma Rsum_Permutation (xs ys : list R) : xs ≡ₚ ys -> Rsum xs = Rsum ys.
Proof.
  induction 1 as [| x xs ys _ IH | x y xs | xs ys zs _ IH1 _ IH2]; simpl.
  - reflexivity.
  - rewrite IH. reflexivity.
  - lra.
  - congruence.
Qed.

Lemma existsb_Permutation {A} (f : A -> bool) (xs ys : list A) :
  xs ≡ₚ ys -> existsb f xs = existsb f ys.
Proof.
  induction 1 as [| x xs ys _ IH | x y xs | xs ys zs _ IH1 _ IH2]; simpl.
  - reflexivity.
  - rewrite IH. reflexivity.
  - destruct (f x), (f y); reflexivity.
  - congruence.
Qed.

Lemma computeGmean_Permutation (xs ys : list R) :
  xs ≡ₚ ys -> computeGmean xs = computeGmean ys.
Proof.
  intros Hp. unfold computeGmean, mean.
  rewrite (existsb_Permutation is_zero xs ys Hp).
  rewrite (Rsum_Permutation (ln <$> xs) (ln <$> ys)) by (apply fmap_Permutation, Hp).
  rewrite !length_fmap, (Permutation_length Hp). reflexivity.
Qed.

Lemma is_zero_positive (x : R) : 0 < x -> is_zero x = false.
Proof.
  intros Hx. unfold is_zero. destruct (Req_dec_T x 0) as [H0 | _]; [lra | reflexivity].
Qed.

(** On positive numbers [computeGmean] is the exponential of the mean of
    the logarithms. *)
Lemma computeGmean_positive (xs : list R) :
  Forall (fun x => 0 < x) xs -> computeGmean xs = exp (mean (ln <$> xs)).
Proof.
  intros Hpos. unfold computeGmean.
  assert (Hz : existsb is_zero xs = false).
  { induction Hpos as [| x xs Hx _ IH]; [reflexivity |].
    simpl. rewrite is_zero_positive by exact Hx. exact IH. }
  rewrite Hz. reflexivity.
Qed.

Lemma Rprod_pos (xs : list R) : Forall (fun x => 0 < x) xs -> 0 < Rprod xs.
Proof.
  induction 1 as [| x xs Hx _ IH]; simpl; [lra |].
  apply Rmult_lt_0_compat; assumption.
Qed.

(** The sum of the logarithms is the logarithm of the product. *)
Lemma Rsum_ln (xs : list R) :
  Forall (fun x => 0 < x) xs -> Rsum (ln <$> xs) = ln (Rprod xs).
Proof.
  induction 1 as [| x xs Hx Hxs IH].
  - simpl. symmetry. apply ln_1.
  - change (ln x + Rsum (ln <$> xs) = ln (x * Rprod xs)).
    rewrite ln_mult by (auto using Rprod_pos). rewrite IH. reflexivity.
Qed.

(** On positive numbers the exponential of the mean of the logarithms is
    the [n]-th root of the product. *)
Lemma exp_mean_ln_root (xs : list R) :
  Forall (fun x => 0 < x) xs ->
  exp (mean (ln <$> xs)) = Rpower (Rprod xs) (/ INR (length xs)).
Proof.
  intros Hpos. unfold mean, Rpower.
  rewrite Rsum_ln by exact Hpos. rewrite length_fmap.
  f_equal. unfold Rdiv. apply Rmult_comm.
Qed.

Lemma computeGmean_singleton (x : R) : 0 <= x -> computeGmean [x] = x.
Proof.
  intros Hx. unfold computeGmean, mean. simpl. unfold is_zero.
  destruct (Req_dec_T x 0) as [-> | Hne]; [reflexivity |]. simpl.
  replace ((ln x + 0) / 1) with (ln x) by lra.
  apply exp_ln. lra.
Qed.

Lemma elem_of_Object_keys (o : gmap string R) (k : string) :
  k ∈ Object_keys o <-> is_Some (o !! k).
Proof.
  unfold Object_keys. rewrite list_elem_of_fmap. split.
  - intros [[k' x] [-> Hin]]. apply elem_of_map_to_list in Hin. eauto.
  - intros [x Hx]. exists (k, x). split; [reflexivity |].
    apply elem_of_map_to_list, Hx.
Qed.

Lemma lookup_foldl_insert (f : string -> R) (ks : list string) :
  forall (g : gmap string R) (k : string),
    foldl (fun g m => <[m := f m]> g) g ks !! k
    = if decide (k ∈ ks) then Some (f k) else g !! k.
Proof.
  induction ks as [| a ks IH]; intros g k; simpl.
  - destruct (decide (k ∈ [])) as [Hin | _]; [| reflexivity].
    apply elem_of_nil in Hin. contradiction.
  - rewrite IH.
    destruct (decide (k ∈ ks)) as [Hin | Hnin].
    + rewrite decide_True by (right; exact Hin). reflexivity.
    + destruct (decide (a = k)) as [-> | Hne].
      * rewrite decide_True by left. apply lookup_insert_eq.
      * rewrite decide_False.
        -- apply lookup_insert_ne, Hne.
        -- intros Hin. apply elem_of_cons in Hin as [-> | Hin]; contradiction.
Qed.

(** The entry of [gmean] under a key is the geometric mean of the column of
    that key, and [gmean] has the keys of the first result. *)
Lemma lookup_gmeanOf (multipleResults : list (gmap string R)) (metric : string) :
  gmeanOf multipleResults !! metric
  = if decide (is_Some (default ∅ (head multipleResults) !! metric))
    then Some (computeGmean (valuesOfMetric multipleResults metric))
    else None.
Proof.
  unfold gmeanOf.
  rewrite (lookup_foldl_insert
             (fun m => computeGmean (valuesOfMetric multipleResults m))).
  destruct (decide (metric ∈ Object_keys (default ∅ (head multipleResults))))
    as [Hin | Hnin].
  - rewrite decide_True by (apply elem_of_Object_keys, Hin). reflexivity.
  - rewrite decide_False by (rewrite <- elem_of_Object_keys; exact Hnin).
    apply lookup_empty.
Qed.

Lemma valuesOfMetric_pos (batch : list (gmap string R)) (metric : string) :
  (forall r, r ∈ batch -> exists x, r !! metric = Some x /\ 0 < x) ->
  Forall (fun x => 0 < x) (valuesOfMetric batch metric).
Proof.
  intros Hpos. unfold valuesOfMetric. apply Forall_fmap, Forall_forall.
  intros r Hr. destruct (Hpos r Hr) as (x & Hx & Hx0).
  simpl. unfold prop. rewrite Hx. exact Hx0.
Qed.

Lemma head_has_metric (batch : list (gmap string R)) (metric : string) :
  batch <> [] ->
  (forall r, r ∈ batch -> exists x, r !! metric = Some x /\ 0 < x) ->
  is_Some (default ∅ (head batch) !! metric).
Proof.
  intros Hne Hpos. destruct batch as [| r batch]; [contradiction |].
  destruct (Hpos r) as (x & Hx & _); [left |]. simpl. eauto.
Qed.

(** The column of a field: the values that the samples of a batch hold
    under it, in the order of the batch. *)
Lemma column_values (batch : list (gmap string R)) (metric : string) (xs : list R) :
  Forall2 (fun r x => r !! metric = Some x) batch xs ->
  valuesOfMetric batch metric = xs.
Proof.
  induction 1 as [| r x batch xs Hr _ IH]; [reflexivity |].
  change (valuesOfMetric (r :: batch) metric)
    with (prop r metric :: valuesOfMetric batch metric).
  rewrite IH. unfold prop. rewrite Hr. reflexivity.
Qed.

Lemma column_positive (batch : list (gmap string R)) (metric : string) (xs : list R) :
  Forall2 (fun r x => r !! metric = Some x) batch xs ->
  Forall (fun x => 0 < x) xs ->
  forall r, r ∈ batch -> exists x, r !! metric = Some x /\ 0 < x.
Proof.
  induction 1 as [| r x batch xs Hr _ IH]; intros Hpos r' Hin.
  - apply elem_of_nil in Hin. contradiction.
  - apply Forall_cons in Hpos as [Hx Hpos].
    apply elem_of_cons in Hin as [-> | Hin]; [eauto | apply IH; assumption].
Qed.

Lemma column_lookup (batch : list (gmap string R)) (metric : string) (xs : list R) :
  batch <> [] ->
  Forall2 (fun r x => r !! metric = Some x) batch xs ->
  gmeanOf batch !! metric = Some (computeGmean xs).
Proof.
  intros Hne Hcol. rewrite lookup_gmeanOf, (column_values batch metric xs Hcol).
  destruct Hcol as [| r x batch xs Hr _]; [contradiction |].
  rewrite decide_True by (simpl; eauto). reflexivity.
Qed.

(** C2: in the aggregate of a batch that is not empty, the entry of a field
    whose values [xs] over the batch are all positive is the geometric
    mean of [xs]: the exponential of the mean of their logarithms, which
    is the n-th root of their product.  It is the same for every
    reordering of the batch.  It is computed from the values of that field
    alone: every batch with the same values in that field has the same
    entry, whatever its other fields hold, and so has the batch after any
    other field has been overwritten in all its samples. *)
Theorem gmean_per_field (batch : list (gmap string R)) (metric : string)
    (xs : list R) :
  batch <> [] ->
  Forall2 (fun r x => r !! metric = Some x) batch xs ->
  Forall (fun x => 0 < x) xs ->
  gmeanOf batch !! metric = Some (exp (mean (ln <$> xs)))
  /\ exp (mean (ln <$> xs)) = Rpower (Rprod xs) (/ INR (length xs))
  /\ (forall batch' : list (gmap string R),
        batch' ≡ₚ batch ->
        gmeanOf batch' !! metric = gmeanOf batch !! metric)
  /\ (forall batch' : list (gmap string R),
        Forall2 (fun r x => r !! metric = Some x) batch' xs ->
        gmeanOf batch' !! metric = gmeanOf batch !! metric)
  /\ (forall (other : string) (v : R),
        other <> metric ->
        gmeanOf ((fun r => <[other := v]> r) <$> batch) !! metric
        = gmeanOf batch !! metric).
Proof.
  intros Hne Hcol Hpos.
  assert (Hlookup : gmeanOf batch !! metric = Some (computeGmean xs))
    by (apply column_lookup; assumption).
  assert (Hxs : xs <> []).
  { intros ->. apply Forall2_nil_inv_r in Hcol. contradiction. }
  assert (Hsame : forall batch' : list (gmap string R),
             Forall2 (fun r x => r !! metric = Some x) batch' xs ->
             gmeanOf batch' !! metric = gmeanOf batch !! metric).
  { intros batch' Hcol'. rewrite Hlookup. apply column_lookup; [| exact Hcol'].
    intros ->. apply Forall2_nil_inv_l in Hcol'. contradiction. }
  split; [rewrite Hlookup, computeGmean_positive by exact Hpos; reflexivity |].
  split; [apply exp_mean_ln_root, Hpos |].
  split; [| split; [exact Hsame |]].
  - intros batch' Hperm.
    assert (Hall : forall r, r ∈ batch -> exists x, r !! metric = Some x /\ 0 < x)
      by (apply column_positive with xs; assumption).
    assert (Hall' : forall r, r ∈ batch' -> exists x, r !! metric = Some x /\ 0 < x).
    { intros r Hr. apply Hall. rewrite <- Hperm. exact Hr. }
    assert (Hne' : batch' <> []).
    { intros ->. apply Permutation_nil_l in Hperm. congruence. }
    rewrite !lookup_gmeanOf, !decide_True by (apply head_has_metric; assumption).
    f_equal. apply computeGmean_Permutation.
    unfold valuesOfMetric. apply fmap_Permutation, Hperm.
  - intros other v Hother. apply Hsame.
    apply Forall2_fmap_l. eapply Forall2_impl; [exact Hcol |].
    intros r x Hr. simpl. rewrite lookup_insert_ne by exact Hother. exact Hr.
Qed.

(** C7: the aggregate of a batch of one sample is that sample: every field
    keeps its value.  The values of a sample are not negative, as the
    data model of the specification has them; a value of 0 is its own
    mean. *)
Theorem gmean_singleton (r : gmap string R) :
  (forall k x, r !! k = Some x -> 0 <= x) ->
  gmeanOf [r] = r.
Proof.
  intros Hpos. apply map_eq. intros k.
  rewrite lookup_gmeanOf. simpl.
  destruct (r !! k) as [x |] eqn:Hk.
  - rewrite decide_True by eauto.
    unfold valuesOfMetric. simpl. unfold prop. rewrite Hk. simpl.
    f_equal. apply computeGmean_singleton. eauto.
  - rewrite decide_False; [reflexivity |].
    intros [x Hx]. discriminate.
Qed.

End GeometricMean.

(** *** Running the script: what each function does to the world *)

Lemma world_eq (w1 w2 : world) :
  audits_run w1 = audits_run w2 ->
  clock_reads w1 = clock_reads w2 ->
  timers w1 = timers w2 ->
  next_handle w1 = next_handle w2 ->
  trace w1 = trace w2 ->
  w1 = w2.
Proof.
  destruct w1, w2. simpl. intros. subst. reflexivity.
Qed.

Lemma extend_extend (w : world) (n m : nat) (evs1 evs2 : list event) :
  extend (extend w n evs1) m evs2 = extend w (m + n) (evs1 ++ evs2).
Proof.
  apply world_eq; simpl; try reflexivity; [lia | apply eq_sym, app_assoc].
Qed.

Lemma extend_nil (w : world) : extend w 0 [] = w.
Proof.
  apply world_eq; simpl; try reflexivity. apply app_nil_r.
Qed.

Lemma effects_extend {A} (m : M A) (w : world) (n : nat) (evs : list event) :
  exec m w = extend w n evs -> effects m w = evs.
Proof.
  intros H. unfold effects. rewrite H. simpl. apply drop_app_length.
Qed.

Lemma emit_run (e : event) (w : world) : emit e w = (tt, extend w 0 [e]).
Proof. reflexivity. Qed.

Section Runs.

Variable paint : style -> string -> string.
Variable engine : nat -> string -> outcome.

Lemma logError_run (url : string) (w : world) :
  logError paint url w
  = (tt, extend w 0 [ WriteRecords (errorRecord url);
                      UnhandledRejection "ReferenceError: r is not defined" ]).
Proof.
  unfold logError.
  assert (Hr : logError_scope url !! "r" = None) by (vm_compute; reflexivity).
  rewrite Hr. unfold mbind, M_bind, bind. rewrite !emit_run.
  rewrite extend_extend. reflexivity.
Qed.

Lemma runLighthouse_run (url : string) (storeLogs : bool) (w : world) :
  runLighthouse paint engine url storeLogs w
  = (report_of (engine (audits_run w) url),
     extend w 1 (attempt_effects paint url storeLogs (engine (audits_run w) url))).
Proof.
  unfold runLighthouse, mbind, M_bind, bind. rewrite emit_run.
  unfold lighthouse. simpl audits_run.
  destruct (engine (audits_run w) url) as [results | error]; simpl report_of.
  - unfold addToLogs. rewrite !emit_run.
    destruct storeLogs; rewrite ?emit_run; unfold ret; f_equal;
      apply world_eq; simpl; try reflexivity;
      rewrite <- ?app_assoc; reflexivity.
  - unfold exec. rewrite emit_run. simpl snd.
    rewrite logError_run, emit_run. unfold ret. f_equal.
    apply world_eq; simpl; try reflexivity.
    rewrite <- ?app_assoc. reflexivity.
Qed.

Lemma bind_run {A B} (m : M A) (k : A -> M B) (w w' : world) (a : A) :
  m w = (a, w') -> (m ≫= k) w = k a w'.
Proof.
  intros H. unfold mbind, M_bind, bind. rewrite H. reflexivity.
Qed.

Lemma reports_app (os1 os2 : list outcome) :
  reports (os1 ++ os2) = reports os1 ++ reports os2.
Proof. apply omap_app. Qed.

(** One round of the loop of [multipleTimes]. *)
Lemma attempt_run (url : string) (storeLogs : bool)
    (multipleResults : list (gmap string R)) (w : world) :
  (runLighthouse paint engine url storeLogs ≫= fun result =>
   match result with
   | Some result => ret (multipleResults ++ [result])
   | None => ret multipleResults
   end) w
  = (multipleResults ++ reports [engine (audits_run w) url],
     extend w 1 (attempt_effects paint url storeLogs (engine (audits_run w) url))).
Proof.
  erewrite bind_run by apply runLighthouse_run.
  unfold reports. simpl.
  destruct (report_of (engine (audits_run w) url)); unfold ret;
    rewrite ?app_nil_r; reflexivity.
Qed.

(** The loop of [multipleTimes], for any number of rounds: round [i] gets
    the answer to call number [i + audits_run w]. *)
Lemma attempts_run (url : string) (storeLogs : bool) (rounds : nat) :
  forall (multipleResults : list (gmap string R)) (w : world),
    for_of (replicate rounds tt)
      (fun (j : unit) (multipleResults : list (gmap string R)) =>
         runLighthouse paint engine url storeLogs ≫= fun result =>
         match result with
         | Some result => ret (multipleResults ++ [result])
         | None => ret multipleResults
         end) multipleResults w
    = (multipleResults
         ++ reports ((fun i => engine (i + audits_run w) url) <$> seq 0 rounds),
       extend w rounds
         (concat (attempt_effects paint url storeLogs
                    <$> ((fun i => engine (i + audits_run w) url) <$> seq 0 rounds)))).
Proof.
  induction rounds as [| rounds IH]; intros acc w.
  - simpl. unfold ret. rewrite app_nil_r, extend_nil. reflexivity.
  - change (replicate (S rounds) ()) with (() :: replicate rounds ()).
    cbn [for_of].
    erewrite bind_run by apply attempt_run.
    rewrite IH. simpl audits_run.
    assert (Hshift : (fun i => engine (i + S (audits_run w)) url) <$> seq 0 rounds
                     = (fun i => engine (i + audits_run w) url) <$> seq 1 rounds).
    { rewrite <- fmap_S_seq, <- list_fmap_compose.
      apply list_fmap_ext. intros _ i _. simpl. f_equal. lia. }
    rewrite Hshift.
    change (seq 0 (S rounds)) with (0 :: seq 1 rounds).
    rewrite !fmap_cons. cbn [concat].
    change (0 + audits_run w) with (audits_run w).
    rewrite extend_extend, <- app_assoc,
      <- (reports_app [engine (audits_run w) url]).
    cbn [app]. f_equal.
    replace (rounds + 1)%nat with (S rounds) by lia. reflexivity.
Qed.

Lemma multipleTimes_run (url : string) (storeLogs : bool) (w : world) :
  multipleTimes paint engine url storeLogs w
  = (tt, extend w 3 (batch_effects paint url storeLogs
                       (answers engine (audits_run w) url))).
Proof.
  unfold multipleTimes.
  erewrite bind_run by apply attempts_run.
  change ((fun i => engine (i + audits_run w) url) <$> seq 0 3)
    with (answers engine (audits_run w) url).
  rewrite app_nil_l. unfold batch_effects, aggregate_effects.
  destruct (0 <? length (reports (answers engine (audits_run w) url)))%nat.
  - erewrite bind_run by apply emit_run.
    unfold addToLogs. rewrite emit_run, !extend_extend. reflexivity.
  - unfold ret. rewrite app_nil_r. reflexivity.
Qed.

End Runs.

(** *** Counting in a trace *)

Lemma written_app (t1 t2 : list event) : written (t1 ++ t2) = written t1 ++ written t2.
Proof. apply omap_app. Qed.

Lemma attempted_app (t1 t2 : list event) :
  attempted (t1 ++ t2) = attempted t1 ++ attempted t2.
Proof. apply omap_app. Qed.

Lemma printed_app (t1 t2 : list event) : printed (t1 ++ t2) = printed t1 ++ printed t2.
Proof. apply omap_app. Qed.

Lemma armed_app (t1 t2 : list event) : armed (t1 ++ t2) = armed t1 ++ armed t2.
Proof. apply omap_app. Qed.

Lemma cleared_app (t1 t2 : list event) : cleared (t1 ++ t2) = cleared t1 ++ cleared t2.
Proof. apply omap_app. Qed.



Lemma saved_app (t1 t2 : list event) : saved (t1 ++ t2) = saved t1 ++ saved t2.
Proof. apply omap_app. Qed.

Lemma rejections_app (t1 t2 : list event) :
  rejections (t1 ++ t2) = rejections t1 ++ rejections t2.
Proof. apply omap_app. Qed.

Lemma rows_app (k : kind) (t1 t2 : list event) :
  rows k (t1 ++ t2) = rows k t1 + rows k t2.
Proof.
  unfold rows. rewrite written_app, List.filter_app. apply length_app.
Qed.


Lemma is_record_errorRecord (k : kind) (url : string) :
  is_record k url (errorRecord url)
  = match k with kind_error => true | _ => false end.
Proof.
  unfold is_record. cbn [errorRecord field String.eqb Ascii.eqb Bool.eqb].
  rewrite bool_decide_eq_true_2 by reflexivity.
  destruct k; reflexivity.
Qed.

Section Counting.

Variable paint : style -> string -> string.




Lemma attempted_attempts (url : string) (storeLogs : bool) (os : list outcome) :
  attempted (concat (attempt_effects paint url storeLogs <$> os))
  = replicate (length os) url.
Proof.
  induction os as [| o os IH]; [reflexivity |].
  rewrite fmap_cons. cbn [concat]. rewrite attempted_app, IH.
  destruct o, storeLogs; reflexivity.
Qed.

Lemma attempted_aggregate (url : string) (rs : list (gmap string R)) :
  attempted (aggregate_effects paint url rs) = [].
Proof.
  unfold aggregate_effects. destruct (0 <? length rs)%nat; reflexivity.
Qed.

Lemma errors_reports_length (os : list outcome) :
  (length (errors os) + length (reports os) = length os)%nat.
Proof.
  induction os as [| [results | error] os IH]; simpl; [reflexivity | |];
    unfold errors, reports in *; cbn [omap list_omap error_of report_of];
    simpl; lia.
Qed.

Lemma failures_errors (os : list outcome) : failures os = length (errors os).
Proof.
  unfold failures. pose proof (errors_reports_length os). lia.
Qed.

(** When no attempt succeeded, every attempt failed. *)
Lemma reports_nil_all_rejected (os : list outcome) :
  reports os = [] -> Forall (fun o => exists error, o = Rejected error) os.
Proof.
  induction os as [| [results | error] os IH]; intros H.
  - constructor.
  - discriminate.
  - constructor; [eauto | apply IH, H].
Qed.

Lemma printed_rejected (url : string) (storeLogs : bool) (os : list outcome) :
  reports os = [] ->
  printed (concat (attempt_effects paint url storeLogs <$> os)) = errors os.
Proof.
  induction os as [| [results | error] os IH]; intros H.
  - reflexivity.
  - discriminate.
  - rewrite fmap_cons. cbn [concat]. rewrite printed_app, IH by exact H.
    reflexivity.
Qed.

Lemma written_rejected (url : string) (storeLogs : bool) (os : list outcome) :
  reports os = [] ->
  written (concat (attempt_effects paint url storeLogs <$> os))
  = replicate (length os) (errorRecord url).
Proof.
  induction os as [| [results | error] os IH]; intros H.
  - reflexivity.
  - discriminate.
  - rewrite fmap_cons. cbn [concat]. rewrite written_app, IH by exact H.
    reflexivity.
Qed.

End Counting.

(** *** The runtime: when a rejection comes up *)

Lemma omap_quiet {B} (g : event -> option B) (t : list event) :
  (forall reason, g (UnhandledRejection reason) = None) ->
  omap g (quiet t) = omap g t.
Proof.
  intros Hg. induction t as [| e t IH]; [reflexivity |].
  unfold omap in *. destruct e; simpl; rewrite ?Hg, ?IH; reflexivity.
Qed.


Lemma written_quiet (t : list event) : written (quiet t) = written t.
Proof. apply omap_quiet. reflexivity. Qed.

Lemma printed_quiet (t : list event) : printed (quiet t) = printed t.
Proof. apply omap_quiet. reflexivity. Qed.

Lemma browser_quiet (t : list event) : browser (quiet t) = browser t.
Proof. apply omap_quiet. reflexivity. Qed.


Lemma quiet_app (t1 t2 : list event) : quiet (t1 ++ t2) = quiet t1 ++ quiet t2.
Proof. apply List.filter_app. Qed.



(** The part of a turn before its first rejection is seen as it is. *)
Lemma observe_app_calm (m : mode) (lag : nat -> nat) (t1 t2 : list event) :
  forall k : nat,
    rejections t1 = [] ->
    observe m lag k [] (t1 ++ t2)
    = (t1 ++ (observe m lag k [] t2).1, (observe m lag k [] t2).2).
Proof.
  induction t1 as [| e t1 IH]; intros k H.
  - simpl. destruct (observe m lag k [] t2). reflexivity.
  - destruct e; try discriminate;
      cbn [app observe awaited ripe later omap list_omap fmap list_fmap];
      rewrite (IH k H); destruct m; reflexivity.
Qed.

(** One step of [observe], by the kind of the effect. *)
Lemma observe_rejection (m : mode) (lag : nat -> nat) (k : nat)
    (pending : list (nat * string)) (reason : string) (t : list event) :
  observe m lag k pending (UnhandledRejection reason :: t)
  = observe m lag (S k) (pending ++ [(lag k, reason)]) t.
Proof. reflexivity. Qed.

Lemma observe_plain (m : mode) (lag : nat -> nat) (k : nat)
    (pending : list (nat * string)) (e : event) (t : list event) :
  awaited e = false -> quiet [e] = [e] ->
  observe m lag k pending (e :: t)
  = (e :: (observe m lag k pending t).1, (observe m lag k pending t).2).
Proof.
  intros Ha Hq. destruct e; try discriminate;
    cbn [observe awaited]; destruct (observe m lag k pending t); reflexivity.
Qed.

Lemma observe_awaited_warn (lag : nat -> nat) (k : nat)
    (pending : list (nat * string)) (e : event) (t : list event) :
  awaited e = true ->
  observe warn lag k pending (e :: t)
  = (e :: (UnhandledRejection <$> ripe pending)
       ++ (observe warn lag k (later pending) t).1,
     (observe warn lag k (later pending) t).2).
Proof.
  intros Ha. destruct e; try discriminate;
    cbn [observe awaited]; destruct (observe warn lag k (later pending) t); reflexivity.
Qed.

Lemma observe_awaited_throw (lag : nat -> nat) (k : nat)
    (pending : list (nat * string)) (e : event) (t : list event) :
  awaited e = true ->
  observe throw lag k pending (e :: t)
  = match ripe pending with
    | reason :: _ => ([e; UnhandledRejection reason], Some 1%Z)
    | [] => (e :: (observe throw lag k (later pending) t).1,
             (observe throw lag k (later pending) t).2)
    end.
Proof.
  intros Ha. destruct e; try discriminate;
    cbn [observe awaited]; destruct (ripe pending); try reflexivity;
    cbn [fmap list_fmap app];
    destruct (observe throw lag k (later pending) t); reflexivity.
Qed.

(** An effect is a rejection, or a call that the script awaits, or
    neither. *)
Lemma event_cases (e : event) :
  (exists reason, e = UnhandledRejection reason)
  \/ (awaited e = true /\ quiet [e] = [e])
  \/ (awaited e = false /\ quiet [e] = [e]).
Proof. destruct e; eauto. Qed.

Lemma quiet_cons (e : event) (t : list event) : quiet (e :: t) = quiet [e] ++ quiet t.
Proof. apply (quiet_app [e] t). Qed.

Lemma quiet_reasons (reasons : list string) : quiet (UnhandledRejection <$> reasons) = [].
Proof. induction reasons as [| r reasons IH]; [reflexivity | exact IH]. Qed.

(** On a runtime that reports rejections the process is never ended, and
    all the effects of the script are seen, in their order. *)
Lemma observe_warn (lag : nat -> nat) (t : list event) :
  forall (k : nat) (pending : list (nat * string)),
    (observe warn lag k pending t).2 = None
    /\ quiet (observe warn lag k pending t).1 = quiet t.
Proof.
  induction t as [| e t IH]; intros k pending.
  - simpl. split; [reflexivity | apply quiet_reasons].
  - destruct (event_cases e) as [[reason ->] | [[Ha Hq] | [Ha Hq]]].
    + apply IH.
    + rewrite observe_awaited_warn by exact Ha. cbn [fst snd].
      destruct (IH k (later pending)) as [Hcode Hseen].
      split; [exact Hcode |].
      rewrite (quiet_cons e t), quiet_cons, quiet_app, quiet_reasons, Hseen.
      reflexivity.
    + rewrite observe_plain by assumption. cbn [fst snd].
      destruct (IH k pending) as [Hcode Hseen].
      split; [exact Hcode |].
      rewrite (quiet_cons e t), quiet_cons, Hseen. reflexivity.
Qed.

(** On a runtime that ends the process at a rejection, either there is no
    rejection and the turn is seen as it is, or the process is ended with
    exit code 1: what is seen is then a part of the effects of the
    script, from the first one to a call that the script awaits or to the
    last one, followed by the rejection. *)
Lemma observe_throw (lag : nat -> nat) (t : list event) :
  forall (k : nat) (pending : list (nat * string)),
    ((observe throw lag k pending t).2 = None
     /\ pending = [] /\ rejections t = []
     /\ (observe throw lag k pending t).1 = t)
    \/ ((observe throw lag k pending t).2 = Some 1%Z
        /\ exists reason : string,
             (observe throw lag k pending t).1 = quiet t ++ [UnhandledRejection reason]
             \/ exists (front : list event) (e : event) (back : list event),
                  quiet t = front ++ e :: back
                  /\ awaited e = true
                  /\ (observe throw lag k pending t).1
                     = front ++ [e; UnhandledRejection reason]).
Proof.
  induction t as [| e t IH]; intros k pending.
  - destruct pending as [| [c reason] pending]; [left; repeat split |].
    right. split; [reflexivity |]. exists reason. left. reflexivity.
  - destruct (event_cases e) as [[reason ->] | [[Ha Hq] | [Ha Hq]]].
    + cbn [observe].
      destruct (IH (S k) (pending ++ [(lag k, reason)]))
        as [(_ & Hnil & _) | (Hcode & reason' & Hseen)].
      { destruct pending; discriminate. }
      right. split; [exact Hcode |]. exists reason'. exact Hseen.
    + rewrite observe_awaited_throw by exact Ha.
      destruct (ripe pending) as [| reason reasons] eqn:Hripe.
      * cbn [fst snd].
        destruct (IH k (later pending))
          as [(Hcode & Hnil & Hcalm & Hseen) | (Hcode & reason' & Hseen)].
        -- left. split; [exact Hcode |].
           assert (Hpending : pending = []).
           { destruct pending as [| [[| c] r] pending]; [reflexivity | |];
               discriminate. }
           split; [exact Hpending |]. split.
           ++ destruct e; try discriminate; exact Hcalm.
           ++ rewrite Hseen. reflexivity.
        -- right. split; [exact Hcode |]. exists reason'.
           rewrite (quiet_cons e t), Hq.
           destruct Hseen as [Hend | (front & e' & back & Hq' & Ha' & Hcut)].
           ++ left. rewrite Hend. reflexivity.
           ++ right. exists (e :: front), e', back.
              rewrite Hq', Hcut. repeat split; [exact Ha'].
      * right. cbn [fst snd]. split; [reflexivity |]. exists reason. right.
        exists [], e, (quiet t). rewrite (quiet_cons e t), Hq. repeat split; exact Ha.
    + rewrite observe_plain by assumption. cbn [fst snd].
      destruct (IH k pending)
        as [(Hcode & Hnil & Hcalm & Hseen) | (Hcode & reason' & Hseen)].
      * left. split; [exact Hcode |]. split; [exact Hnil |]. split.
        -- destruct e; try discriminate; exact Hcalm.
        -- rewrite Hseen. reflexivity.
      * right. split; [exact Hcode |]. exists reason'.
        rewrite (quiet_cons e t), Hq.
        destruct Hseen as [Hend | (front & e' & back & Hq' & Ha' & Hcut)].
        -- left. rewrite Hend. reflexivity.
        -- right. exists (e :: front), e', back.
           rewrite Hq', Hcut. repeat split; [exact Ha'].
Qed.



(** A part of what a turn is without its rejections is what a part of
    the turn is without its rejections. *)
Lemma quiet_prefix (t : list event) :
  forall p : list event,
    p `prefix_of` quiet t -> exists p' : list event, p' `prefix_of` t /\ quiet p' = p.
Proof.
  induction t as [| e t IH]; intros p Hp.
  - apply prefix_nil_inv in Hp as ->. exists []. split; reflexivity.
  - destruct (event_cases e) as [[reason ->] | [[_ Hq] | [_ Hq]]].
    + destruct (IH p Hp) as (p' & Hp' & Hq').
      exists (UnhandledRejection reason :: p'). split; [apply prefix_cons, Hp' | exact Hq'].
    + rewrite quiet_cons, Hq in Hp. destruct p as [| e' p].
      * exists []. split; [apply prefix_nil | reflexivity].
      * apply prefix_cons_inv_1 in Hp as He. subst e'.
        apply prefix_cons_inv_2 in Hp. destruct (IH p Hp) as (p' & Hp' & Hq').
        exists (e :: p'). split; [apply prefix_cons, Hp' |].
        rewrite quiet_cons, Hq, Hq'. reflexivity.
    + rewrite quiet_cons, Hq in Hp. destruct p as [| e' p].
      * exists []. split; [apply prefix_nil | reflexivity].
      * apply prefix_cons_inv_1 in Hp as He. subst e'.
        apply prefix_cons_inv_2 in Hp. destruct (IH p Hp) as (p' & Hp' & Hq').
        exists (e :: p'). split; [apply prefix_cons, Hp' |].
        rewrite quiet_cons, Hq, Hq'. reflexivity.
Qed.


(** *** One URL: three attempts, their rows, the aggregate *)

Section Batch.

Variable paint : style -> string -> string.
Variable engine : nat -> string -> outcome.
Variable clock : nat -> moment.

Lemma effects_multipleTimes (url : string) (storeLogs : bool) (w : world) :
  effects (multipleTimes paint engine url storeLogs) w
  = batch_effects paint url storeLogs (answers engine (audits_run w) url).
Proof.
  apply (effects_extend _ _ 3). unfold exec. rewrite multipleTimes_run. reflexivity.
Qed.

(** The loop of [doScript] inside the window: it prints its line, runs
    [multipleTimes] on the URL and goes on with the next index. *)
Lemma doScript_from_open (i : nat) (url : string) (rest : list string)
    (cmd : command) (w : world) :
  checkTime_at (clock (clock_reads w)) = true ->
  doScript_from paint engine clock i (url :: rest) cmd w
  = doScript_from paint engine clock (S i) rest cmd
      (exec (multipleTimes paint engine url (storeLogs cmd))
         (extend (tick w) 0 [ConsoleLog "It's a great time to run the script"])).
Proof.
  intros Hopen. cbn [doScript_from].
  erewrite bind_run by reflexivity. rewrite Hopen.
  erewrite bind_run by apply emit_run.
  unfold exec.
  destruct (multipleTimes paint engine url (storeLogs cmd)
              (extend (tick w) 0 [ConsoleLog "It's a great time to run the script"]))
    as [[] w'] eqn:Hrun.
  erewrite bind_run by exact Hrun. reflexivity.
Qed.

(** **** The attempts up to the first one that fails *)

Lemma first_failure_le (os : list outcome) : first_failure os <= length os.
Proof.
  induction os as [| [results | error] os IH]; simpl; lia.
Qed.


Lemma first_failure_split (os : list outcome) :
  0 < failures os ->
  exists reason : string,
    os = take (first_failure os) os
           ++ Rejected reason :: drop (S (first_failure os)) os
    /\ errors (take (first_failure os) os) = []
    /\ length (reports (take (first_failure os) os)) = first_failure os
    /\ first_failure os < length os.
Proof.
  rewrite failures_errors.
  induction os as [| [results | error] os IH]; simpl; intros H.
  - lia.
  - destruct (IH H) as (reason & Hsplit & Herr & Hlen & Hlt).
    exists reason. split; [f_equal; exact Hsplit |].
    split; [exact Herr |]. split; [simpl; f_equal; exact Hlen | lia].
  - exists error. rewrite drop_0. repeat split. lia.
Qed.

Lemma rejections_attempts_calm (url : string) (storeLogs : bool) (os : list outcome) :
  errors os = [] ->
  rejections (concat (attempt_effects paint url storeLogs <$> os)) = [].
Proof.
  induction os as [| [results | error] os IH]; intros H.
  - reflexivity.
  - rewrite fmap_cons. cbn [concat]. rewrite rejections_app, IH by exact H.
    destruct storeLogs; reflexivity.
  - discriminate.
Qed.



(** On a runtime that ends the process at a rejection, a batch with a
    failed attempt is seen up to the call of [chrome.kill()] of the first
    attempt that fails, at least; the process is then ended during that
    call or during a later call that the script awaits, or when the
    script is done. *)
Lemma batch_throw (lag : nat -> nat) (k : nat) (url : string) (storeLogs : bool)
    (os : list outcome) :
  0 < failures os ->
  exists (reason : string) (p : list event) (reason' : string),
    os !! first_failure os = Some (Rejected reason)
    /\ observe throw lag k [] (batch_effects paint url storeLogs os)
       = (concat (attempt_effects paint url storeLogs <$> take (first_failure os) os)
            ++ [ ChromeLaunch; Lighthouse url; ConsoleLog reason;
                 WriteRecords (errorRecord url); ChromeKill ]
            ++ p ++ [UnhandledRejection reason'],
          Some 1%Z)
    /\ (p = after_failure paint url storeLogs os
        \/ (exists (front : list event) (e : event) (back : list event),
              after_failure paint url storeLogs os = front ++ e :: back
              /\ awaited e = true
              /\ p = front ++ [e])
        \/ p = [])
    /\ (lag k = 0 -> p = []).
Proof.
  intros Hfail. destruct (first_failure_split os Hfail) as (reason & Hsplit & Herr & _ & Hlt).
  set (j := first_failure os) in *.
  assert (Hat : os !! j = Some (Rejected reason)).
  { rewrite Hsplit at 1. rewrite lookup_app_r by (rewrite length_take; lia).
    rewrite length_take, Nat.min_l by lia. rewrite Nat.sub_diag. reflexivity. }
  set (rest := concat (attempt_effects paint url storeLogs <$> drop (S j) os)
               ++ aggregate_effects paint url (reports os)).
  assert (Hbatch : batch_effects paint url storeLogs os
                   = (concat (attempt_effects paint url storeLogs <$> take j os)
                        ++ [ ChromeLaunch; Lighthouse url; ConsoleLog reason;
                             WriteRecords (errorRecord url) ])
                     ++ UnhandledRejection "ReferenceError: r is not defined"
                          :: ChromeKill :: rest).
  { unfold batch_effects, rest. rewrite Hsplit at 1.
    rewrite fmap_app, concat_app, fmap_cons. cbn [concat attempt_effects].
    rewrite <- !app_assoc. reflexivity. }
  rewrite Hbatch, observe_app_calm
    by (rewrite rejections_app, rejections_attempts_calm by exact Herr; reflexivity).
  rewrite observe_rejection. cbn [app]. rewrite observe_awaited_throw by reflexivity.
  destruct (lag k) as [| c] eqn:Hlag; cbn [ripe later omap list_omap fst snd].
  - exists reason, [], "ReferenceError: r is not defined".
    split; [exact Hat |]. split; [rewrite <- !app_assoc; reflexivity |].
    split; [right; right; reflexivity | reflexivity].
  - destruct (observe_throw lag rest (S k) [(c, "ReferenceError: r is not defined")])
      as [(_ & Hnil & _) | (Hcode & reason' & Hseen)]; [discriminate |].
    rewrite Hcode.
    destruct Hseen as [Hend | (front & e & back & Hq & Ha & Hcut)].
    + exists reason, (quiet rest), reason'.
      split; [exact Hat |]. split; [rewrite Hend, <- !app_assoc; reflexivity |].
      split; [left; reflexivity | discriminate].
    + exists reason, (front ++ [e]), reason'.
      split; [exact Hat |]. split; [rewrite Hcut, <- !app_assoc; reflexivity |].
      split; [| discriminate].
      right. left. exists front, e, back. repeat split; assumption.
Qed.














Lemma written_quiet_rows (k : kind) (t : list event) : rows k (quiet t) = rows k t.
Proof. unfold rows. rewrite written_quiet. reflexivity. Qed.

(** A trace whose rows are all error rows for [url]. *)
Lemma error_rows_only (url : string) (t : list event) :
  Forall (fun record => record = errorRecord url) (written t) ->
  persisted kind_aggregate url t = 0
  /\ rows kind_aggregate t = 0
  /\ Forall (fun record =>
               field "site" record = Some url
               /\ field "type" record = Some "Error: site not loaded"
               /\ field "p" record = None)
       (written t).
Proof.
  unfold persisted, rows. induction 1 as [| record records -> _ IH].
  - repeat split. constructor.
  - destruct IH as (Hp & Hr & Hf). cbn [List.filter].
    rewrite is_record_errorRecord. cbn [bool_decide]. split; [exact Hp |].
    split; [exact Hr |]. constructor; [| exact Hf]. repeat split.
Qed.

(** C6: when none of the three attempts succeeded, [multipleTimes] does
    nothing after the attempts: its effects are those of the three failed
    attempts, and on either runtime no aggregate row is seen.  The
    failures are on record: every row that is seen is an error row for
    the URL, one for each error that is printed, and there is at least
    one.  On a runtime that reports a rejection nobody handles there are
    three of them.  On a runtime that ends the process at such a
    rejection the process is ended with exit code 1, and there is one
    error row when the rejection comes up while Chrome is being killed. *)
Theorem no_aggregate_of_empty_batch (m : mode) (lag : nat -> nat) (k : nat)
    (url : string) (storeLogs : bool) (w : world) :
  reports (answers engine (audits_run w) url) = [] ->
  let os := answers engine (audits_run w) url in
  let t := effects (multipleTimes paint engine url storeLogs) w in
  let seen := (observe m lag k [] t).1 in
  let code := (observe m lag k [] t).2 in
  t = concat (attempt_effects paint url storeLogs <$> os)
  /\ persisted kind_aggregate url seen = 0
  /\ rows kind_aggregate seen = 0
  /\ Forall (fun record =>
               field "site" record = Some url
               /\ field "type" record = Some "Error: site not loaded"
               /\ field "p" record = None)
       (written seen)
  /\ printed seen = take (length (written seen)) (errors os)
  /\ length (errors os) = 3
  /\ 1 <= length (written seen) <= 3
  /\ (m = warn -> code = None /\ length (written seen) = 3)
  /\ (m = throw -> code = Some 1%Z /\ (lag k = 0 -> length (written seen) = 1)).
Proof.
  intros Hnone os t seen code. clear clock.
  assert (Ht : t = concat (attempt_effects paint url storeLogs <$> os)).
  { unfold t. rewrite effects_multipleTimes. unfold batch_effects, aggregate_effects.
    rewrite Hnone. apply app_nil_r. }
  assert (Hbatch : t = batch_effects paint url storeLogs os)
    by apply effects_multipleTimes.
  split; [exact Ht |].
  assert (Hos : exists e1 e2 e3, os = [Rejected e1; Rejected e2; Rejected e3]).
  { unfold os, answers in *.
    destruct (engine (audits_run w) url) as [r1 | e1]; [discriminate |].
    destruct (engine (S (audits_run w)) url) as [r2 | e2]; [discriminate |].
    destruct (engine (S (S (audits_run w))) url) as [r3 | e3]; [discriminate |].
    eauto. }
  destruct Hos as (e1 & e2 & e3 & Hos).
  assert (Hsite : String.eqb "site" "site" = true) by reflexivity.
  destruct m.
  - destruct (observe_warn lag t k []) as [Hcode Hq].
    fold seen in Hq. fold code in Hcode.
    assert (Hwritten : written seen = written t)
      by (rewrite <- written_quiet, Hq, written_quiet; reflexivity).
    assert (Hprinted : printed seen = printed t)
      by (rewrite <- printed_quiet, Hq, printed_quiet; reflexivity).
    assert (Hrows : Forall (fun record => record = errorRecord url) (written seen)).
    { rewrite Hwritten, Ht, Hos. repeat constructor. }
    destruct (error_rows_only url seen Hrows) as (Hp & Hr & Hf).
    split; [exact Hp |]. split; [exact Hr |]. split; [exact Hf |].
    rewrite Hwritten, Hprinted, Ht, Hos.
    split; [reflexivity |]. split; [reflexivity |]. split; [cbn; lia |].
    split; [intros _; split; [exact Hcode | reflexivity] | discriminate].
  - assert (Hfail : 0 < failures os) by (rewrite Hos; unfold failures; simpl; lia).
    destruct (batch_throw lag k url storeLogs os Hfail)
      as (reason & p & reason' & Hat & Hrun & Hcut & Hprompt).
    rewrite <- Hbatch in Hrun.
    rewrite Hos in Hat. injection Hat as <-.
    assert (Hseen : seen = (observe throw lag k [] t).1) by reflexivity.
    assert (Hcode : code = Some 1%Z) by (unfold code; rewrite Hrun; reflexivity).
    rewrite Hrun in Hseen. cbn [fst] in Hseen.
    unfold after_failure in Hcut. rewrite Hos in Hseen, Hcut |- *.
    cbn [first_failure take drop fmap list_fmap concat attempt_effects app
           aggregate_effects reports omap list_omap report_of length Nat.ltb Nat.leb
           quiet List.filter errors error_of] in Hseen, Hcut |- *.
    assert (Hcases : In p [ [];
                            [ChromeLaunch];
                            [ChromeLaunch; Lighthouse url];
                            [ ChromeLaunch; Lighthouse url; ConsoleLog e2;
                              WriteRecords (errorRecord url); ChromeKill ];
                            [ ChromeLaunch; Lighthouse url; ConsoleLog e2;
                              WriteRecords (errorRecord url); ChromeKill;
                              ChromeLaunch ];
                            [ ChromeLaunch; Lighthouse url; ConsoleLog e2;
                              WriteRecords (errorRecord url); ChromeKill;
                              ChromeLaunch; Lighthouse url ];
                            [ ChromeLaunch; Lighthouse url; ConsoleLog e2;
                              WriteRecords (errorRecord url); ChromeKill;
                              ChromeLaunch; Lighthouse url; ConsoleLog e3;
                              WriteRecords (errorRecord url); ChromeKill ] ]).
    { destruct Hcut as [-> | [(front & e & back & Hq & Ha & ->) | ->]];
        [do 6 right; left; reflexivity | | left; reflexivity].
      repeat (destruct front as [| ? front];
              [ injection Hq as <- <-; first [discriminate Ha | cbn; tauto]
              | injection Hq as <- Hq ]).
      destruct front; discriminate Hq. }
    clear Hcut. cbn [In] in Hcases.
    assert (Hend : forall q : list event,
               q = p ->
               Forall (fun record => record = errorRecord url)
                 (written ([ ChromeLaunch; Lighthouse url; ConsoleLog e1;
                             WriteRecords (errorRecord url); ChromeKill ]
                           ++ q ++ [UnhandledRejection reason'])) ->
               persisted kind_aggregate url seen = 0
               /\ rows kind_aggregate seen = 0
               /\ Forall (fun record =>
                            field "site" record = Some url
                            /\ field "type" record = Some "Error: site not loaded"
                            /\ field "p" record = None)
                    (written seen)).
    { intros q -> Hrows. rewrite Hseen. apply error_rows_only, Hrows. }
    destruct Hcases as [<- | [<- | [<- | [<- | [<- | [<- | [<- | []]]]]]]];
      (destruct (Hend _ eq_refl ltac:(repeat constructor)) as (Hp & Hr & Hf);
       split; [exact Hp |]; split; [exact Hr |]; split; [exact Hf |];
       rewrite Hseen;
       split; [reflexivity |]; split; [reflexivity |]; split; [cbn; lia |];
       split; [discriminate |]; intros _; split; [exact Hcode |];
       intros Hlag; specialize (Hprompt Hlag);
       first [discriminate Hprompt | reflexivity]).
Qed.

(** C9: no binding of [r] is visible inside [logError].  After the error
    row has been written, the callback that was to print a confirmation
    with a score raises a ReferenceError instead and prints nothing.  An
    attempt that fails therefore prints the error of the audit engine and
    no score, and a URL whose three attempts fail gets three rows without
    a score column and no line other than those errors. *)
Theorem logError_reference_error (url : string) (storeLogs : bool) (w : world) :
  logError_scope url !! "r" = None
  /\ effects (logError paint url) w
     = [ WriteRecords (errorRecord url);
         UnhandledRejection "ReferenceError: r is not defined" ]
  /\ printed (effects (logError paint url) w) = []
  /\ field "p" (errorRecord url) = None
  /\ (forall reason : string,
        engine (audits_run w) url = Rejected reason ->
        eval (runLighthouse paint engine url storeLogs) w = None
        /\ effects (runLighthouse paint engine url storeLogs) w
           = [ ChromeLaunch; Lighthouse url; ConsoleLog reason;
               WriteRecords (errorRecord url);
               UnhandledRejection "ReferenceError: r is not defined";
               ChromeKill ])
  /\ (reports (answers engine (audits_run w) url) = [] ->
      printed (effects (multipleTimes paint engine url storeLogs) w)
        = errors (answers engine (audits_run w) url)
      /\ Forall (fun r => field "p" r = None)
           (written (effects (multipleTimes paint engine url storeLogs) w))).
Proof.
  assert (Hlog : effects (logError paint url) w
                 = [ WriteRecords (errorRecord url);
                     UnhandledRejection "ReferenceError: r is not defined" ]).
  { apply (effects_extend _ _ 0). unfold exec. rewrite logError_run. reflexivity. }
  split; [vm_compute; reflexivity |].
  split; [exact Hlog |].
  split; [rewrite Hlog; reflexivity |].
  split; [reflexivity |].
  split.
  - intros reason Hrejected. split.
    + unfold eval. rewrite runLighthouse_run, Hrejected. reflexivity.
    + apply (effects_extend _ _ 1). unfold exec.
      rewrite runLighthouse_run, Hrejected. reflexivity.
  - intros Hnone. rewrite effects_multipleTimes.
    unfold batch_effects, aggregate_effects. rewrite Hnone, app_nil_r.
    split; [apply printed_rejected, Hnone |].
    rewrite written_rejected by exact Hnone.
    repeat constructor.
Qed.

End Batch.

(** *** The scenario of the specification, evaluated *)




(** The second URL of the scenario.  Where the rejection is reported:
    three error rows and nothing else.  Where it ends the process while
    Chrome is being killed: one error row and nothing else, and exit code
    1. *)
Lemma no_aggregate_of_empty_batch_witness :
  (let seen :=
     (observe warn (fun _ => 0%nat) 0 []
        (effects (multipleTimes Scenario.plain Scenario.engine "b.example" false)
           boot)).1 in
   length (written seen) = 3%nat
   /\ persisted kind_aggregate "b.example" seen = 0%nat
   /\ printed seen = [ "net::ERR_CONNECTION_REFUSED"; "net::ERR_CONNECTION_REFUSED";
                       "net::ERR_CONNECTION_REFUSED" ])
  /\ (let seen :=
        (observe throw (fun _ => 0%nat) 0 []
           (effects (multipleTimes Scenario.plain Scenario.engine "b.example" false)
              boot)).1 in
      length (written seen) = 1%nat
      /\ persisted kind_aggregate "b.example" seen = 0%nat
      /\ printed seen = ["net::ERR_CONNECTION_REFUSED"]).
Proof.
  split.
  - destruct (no_aggregate_of_empty_batch Scenario.plain Scenario.engine
                warn (fun _ => 0%nat) 0 "b.example" false boot eq_refl)
      as (_ & Hnone & _ & _ & Hprinted & _ & _ & Hwarn & _).
    destruct (Hwarn eq_refl) as [_ Hthree].
    cbv zeta. split; [exact Hthree |]. split; [exact Hnone |].
    rewrite Hprinted, Hthree. reflexivity.
  - destruct (no_aggregate_of_empty_batch Scenario.plain Scenario.engine
                throw (fun _ => 0%nat) 0 "b.example" false boot eq_refl)
      as (_ & Hnone & _ & _ & Hprinted & _ & _ & _ & Hthrow).
    destruct (Hthrow eq_refl) as [_ Hprompt].
    cbv zeta. split; [exact (Hprompt eq_refl) |]. split; [exact Hnone |].
    rewrite Hprinted, (Hprompt eq_refl). reflexivity.
Defined.

(** The second URL of the scenario: the console shows the three errors of
    the audit engine and no score. *)
Lemma logError_reference_error_witness :
  printed (effects (multipleTimes Scenario.plain Scenario.engine "b.example" false) boot)
  = [ "net::ERR_CONNECTION_REFUSED"; "net::ERR_CONNECTION_REFUSED";
      "net::ERR_CONNECTION_REFUSED" ].
Proof.
  destruct (logError_reference_error Scenario.plain Scenario.engine
              "b.example" false boot) as (_ & _ & _ & _ & _ & Hall).
  destruct (Hall eq_refl) as [Hprinted _].
  rewrite Hprinted. reflexivity.
Defined.

Example logError_trace :
  trace (exec (logError Scenario.plain "b.example") boot)
  = [ WriteRecords [("site", "b.example"); ("type", "Error: site not loaded")];
      UnhandledRejection "ReferenceError: r is not defined" ].
Proof. vm_compute. reflexivity. Qed.

(** Two samples with a speed index of 2 and of 8 aggregate to a speed
    index of 4, whatever their byte weights. *)
Lemma gmean_per_field_witness :
  gmeanOf [ {[ "speedIndex" := 2%R; "totalByteWeight" := 5%R ]};
            {[ "speedIndex" := 8%R; "totalByteWeight" := 7%R ]} ] !! "speedIndex"
  = Some 4%R.
Proof.
  assert (Hne : [ ({[ "speedIndex" := 2%R; "totalByteWeight" := 5%R ]} : gmap string R);
                  {[ "speedIndex" := 8%R; "totalByteWeight" := 7%R ]} ] <> [])
    by discriminate.
  assert (Hcol : Forall2 (fun (r : gmap string R) (x : R) => r !! "speedIndex" = Some x)
                   [ {[ "speedIndex" := 2%R; "totalByteWeight" := 5%R ]};
                     {[ "speedIndex" := 8%R; "totalByteWeight" := 7%R ]} ]
                   [2%R; 8%R]).
  { repeat constructor; apply lookup_insert_eq. }
  assert (Hpos : Forall (fun x : R => (0 < x)%R) [2%R; 8%R])
    by (repeat constructor; lra).
  destruct (gmean_per_field _ "speedIndex" _ Hne Hcol Hpos) as (Hmean & Hroot & _).
  rewrite Hmean, Hroot. f_equal.
  cbn [length Rprod foldr INR].
  replace (2 * (8 * 1))%R with (4 * 4)%R by lra.
  replace (1 + 1)%R with 2%R by lra.
  rewrite Rpower_sqrt by lra.
  apply sqrt_square. lra.
Defined.

(** A sample with a score of 0 and a speed index of 1200 is its own
    aggregate. *)
Lemma gmean_singleton_witness :
  gmeanOf [ {[ "performanceScore" := 0%R; "speedIndex" := 1200%R ]} ]
  = {[ "performanceScore" := 0%R; "speedIndex" := 1200%R ]}.
Proof.
  apply gmean_singleton.
  intros k x Hk. apply lookup_insert_Some in Hk as [[_ <-] | [_ Hk]]; [lra |].
  apply lookup_singleton_Some in Hk as [_ <-]. lra.
Defined.

(** *** The loop over the URLs *)

Lemma thrice_app (us vs : list string) : thrice (us ++ vs) = thrice us ++ thrice vs.
Proof. apply flat_map_app. Qed.

Section Loop.

Variable paint : style -> string -> string.
Variable urlsToCheck : list string.
Variable engine : nat -> string -> outcome.
Variable clock : nat -> moment.

Lemma armed_batch (url : string) (storeLogs : bool) (os : list outcome) :
  armed (batch_effects paint url storeLogs os) = [].
Proof.
  unfold batch_effects. rewrite armed_app.
  assert (Hagg : armed (aggregate_effects paint url (reports os)) = []).
  { unfold aggregate_effects.
    destruct (0 <? length (reports os))%nat; reflexivity. }
  rewrite Hagg, app_nil_r. clear Hagg.
  induction os as [| o os IH]; [reflexivity |].
  rewrite fmap_cons. cbn [concat]. rewrite armed_app, IH, app_nil_r.
  destruct o, storeLogs; reflexivity.
Qed.

Lemma cleared_batch (url : string) (storeLogs : bool) (os : list outcome) :
  cleared (batch_effects paint url storeLogs os) = [].
Proof.
  unfold batch_effects. rewrite cleared_app.
  assert (Hagg : cleared (aggregate_effects paint url (reports os)) = []).
  { unfold aggregate_effects.
    destruct (0 <? length (reports os))%nat; reflexivity. }
  rewrite Hagg, app_nil_r. clear Hagg.
  induction os as [| o os IH]; [reflexivity |].
  rewrite fmap_cons. cbn [concat]. rewrite cleared_app, IH, app_nil_r.
  destruct o, storeLogs; reflexivity.
Qed.

Lemma attempted_batch (url : string) (storeLogs : bool) (os : list outcome) :
  attempted (batch_effects paint url storeLogs os) = replicate (length os) url.
Proof.
  unfold batch_effects.
  rewrite attempted_app, attempted_attempts, attempted_aggregate. apply app_nil_r.
Qed.

(** The loop outside the window: nothing is audited; the index is handed
    to a new interval and the loop ends. *)
Lemma doScript_from_closed (i : nat) (url : string) (rest : list string)
    (cmd : command) (w : world) :
  checkTime_at (clock (clock_reads w)) = false ->
  doScript_from paint engine clock i (url :: rest) cmd w = (tt, suspend i cmd w).
Proof.
  intros Hclosed. cbn [doScript_from].
  erewrite bind_run by reflexivity. rewrite Hclosed.
  erewrite bind_run by apply emit_run.
  unfold pauseScript, suspend. f_equal.
  apply world_eq; simpl; try reflexivity.
  rewrite <- app_assoc. reflexivity.
Qed.

(** What a run of the loop from index [i] does, [rest] being the URLs from
    [i] on: it audits the first [j] of them, three times each; then either
    the list is finished and no interval has been set, or it has set one
    interval, which holds [i + j]. *)
Lemma doScript_from_run (cmd : command) (rest : list string) :
  forall (i : nat) (w : world),
  exists (j : nat) (evs : list event),
    trace (exec (doScript_from paint engine clock i rest cmd) w) = trace w ++ evs
    /\ attempted evs = thrice (take j rest)
    /\ cleared evs = []
    /\ ((j = length rest
         /\ timers (exec (doScript_from paint engine clock i rest cmd) w) = timers w
         /\ next_handle (exec (doScript_from paint engine clock i rest cmd) w)
            = next_handle w
         /\ armed evs = [])
        \/ (j < length rest
            /\ timers (exec (doScript_from paint engine clock i rest cmd) w)
               = <[next_handle w := Closure (i + j) cmd]> (timers w)
            /\ next_handle (exec (doScript_from paint engine clock i rest cmd) w)
               = S (next_handle w)
            /\ armed evs = [next_handle w])).
Proof.
  induction rest as [| url rest IH]; intros i w.
  - exists 0, []. simpl. rewrite app_nil_r. repeat split. left. repeat split.
  - destruct (checkTime_at (clock (clock_reads w))) eqn:Hwindow.
    + set (w1 := extend (tick w) 0 [ConsoleLog "It's a great time to run the script"]).
      set (batch := batch_effects paint url (storeLogs cmd)
                      (answers engine (audits_run w1) url)).
      assert (Hexec : exec (doScript_from paint engine clock i (url :: rest) cmd) w
                      = exec (doScript_from paint engine clock (S i) rest cmd)
                          (extend w1 3 batch)).
      { unfold exec, batch, w1. rewrite doScript_from_open by exact Hwindow.
        unfold exec. rewrite multipleTimes_run. reflexivity. }
      rewrite Hexec.
      destruct (IH (S i) (extend w1 3 batch))
        as (j & evs & Htrace & Hattempted & Hcleared & Hend).
      exists (S j), ([ConsoleLog "It's a great time to run the script"] ++ batch ++ evs).
      split; [| split; [| split]].
      * rewrite Htrace. simpl. rewrite <- !app_assoc. reflexivity.
      * rewrite !attempted_app, Hattempted. unfold batch.
        rewrite attempted_batch. reflexivity.
      * rewrite !cleared_app, Hcleared. unfold batch.
        rewrite cleared_batch. reflexivity.
      * destruct Hend as [(Hj & Htimers & Hnext & Harmed)
                         | (Hj & Htimers & Hnext & Harmed)].
        -- left. rewrite Htimers, Hnext, !armed_app, Harmed. unfold batch.
           rewrite armed_batch. simpl. repeat split. lia.
        -- right. rewrite Htimers, Hnext, !armed_app, Harmed. unfold batch.
           rewrite armed_batch. simpl.
           replace (i + S j) with (S i + j) by lia. repeat split. lia.
    + assert (Hexec : exec (doScript_from paint engine clock i (url :: rest) cmd) w
                      = suspend i cmd w).
      { unfold exec. rewrite doScript_from_closed by exact Hwindow. reflexivity. }
      rewrite Hexec.
      exists 0, [ ConsoleLog "Terrible time to run the script";
                  SetInterval (next_handle w) 60000 ].
      simpl. split; [reflexivity |]. split; [reflexivity |]. split; [reflexivity |].
      right. rewrite Nat.add_0_r. repeat split. lia.
Qed.

Lemma onInterval_closed (h : nat) (c : closure) (w : world) :
  checkTime_at (clock (clock_reads w)) = false ->
  onInterval paint urlsToCheck engine clock h c w = (tt, tick w).
Proof.
  intros Hclosed. unfold onInterval.
  erewrite bind_run by reflexivity. rewrite Hclosed. reflexivity.
Qed.

Lemma onInterval_open (h : nat) (c : closure) (w : world) :
  checkTime_at (clock (clock_reads w)) = true ->
  onInterval paint urlsToCheck engine clock h c w
  = doScript paint urlsToCheck engine clock (pausePoint c) (closure_cmd c)
      (resume h c w).
Proof.
  intros Hopen. unfold onInterval.
  erewrite bind_run by reflexivity. rewrite Hopen.
  erewrite bind_run by reflexivity.
  erewrite bind_run by apply emit_run.
  f_equal. apply world_eq; simpl; try reflexivity.
  rewrite <- app_assoc. reflexivity.
Qed.

(** A run of [doScript] from index [p], started when the first [p] URLs
    have been audited and no interval is set, parks the loop at an index
    from [p] on. *)
Lemma doScript_parks (cmd : command) (p : nat) (w : world) :
  attempted (trace w) = thrice (take p urlsToCheck) ->
  timers w = ∅ ->
  p <= length urlsToCheck ->
  exists k, p <= k
    /\ parked_at urlsToCheck cmd k
         (exec (doScript paint urlsToCheck engine clock p cmd) w)
    /\ (checkTime_at (clock (clock_reads w)) = true -> p < length urlsToCheck -> p < k).
Proof.
  intros Hdone Hnone Hp. unfold doScript.
  destruct (doScript_from_run cmd (drop p urlsToCheck) p w)
    as (j & evs & Htrace & Hattempted & _ & Hend).
  exists (p + j). split; [lia |]. split.
  - unfold parked_at. rewrite Htrace, attempted_app, Hdone, Hattempted.
    rewrite <- thrice_app, take_take_drop. split; [reflexivity |].
    rewrite length_drop in Hend.
    destruct Hend as [(Hj & Htimers & _) | (Hj & Htimers & _)].
    + left. rewrite Htimers. split; [lia | exact Hnone].
    + right. split; [lia |].
      exists (next_handle w). rewrite Htimers, Hnone. apply insert_empty.
  - intros Hopen Hlt.
    assert (j <> 0); [| lia]. intros ->.
    destruct (drop p urlsToCheck) as [| url rest] eqn:Hdrop.
    { apply (f_equal length) in Hdrop. rewrite length_drop in Hdrop.
      simpl in Hdrop. lia. }
    unfold exec in Htrace. rewrite doScript_from_open in Htrace by exact Hopen.
    fold (exec (doScript_from paint engine clock (S p) rest cmd)
            (exec (multipleTimes paint engine url (storeLogs cmd))
               (extend (tick w) 0 [ConsoleLog "It's a great time to run the script"])))
      in Htrace.
    destruct (doScript_from_run cmd rest (S p)
                (exec (multipleTimes paint engine url (storeLogs cmd))
                   (extend (tick w) 0
                      [ConsoleLog "It's a great time to run the script"])))
      as (j' & evs' & Htrace' & _).
    rewrite Htrace' in Htrace. unfold exec in Htrace at 1.
    rewrite multipleTimes_run in Htrace. simpl in Htrace.
    rewrite <- !app_assoc in Htrace. apply app_inv_head in Htrace.
    rewrite <- Htrace in Hattempted. simpl in Hattempted.
    rewrite attempted_app, attempted_batch in Hattempted. discriminate.
Qed.

Lemma boot_handles : handles_in_order boot.
Proof.
  unfold handles_in_order. simpl. split; [reflexivity |].
  split; [constructor |].
  split; [intros h Hh; apply elem_of_nil in Hh; contradiction |].
  split; [intros h Hh; apply elem_of_nil in Hh; contradiction |].
  intros h [c Hc]. rewrite lookup_empty in Hc. discriminate.
Qed.

Lemma doScript_handles (cmd : command) (p : nat) (w : world) :
  handles_in_order w ->
  handles_in_order (exec (doScript paint urlsToCheck engine clock p cmd) w).
Proof.
  intros (Harmed & Hnodup & Hgone & Hold & Hset). unfold doScript.
  destruct (doScript_from_run cmd (drop p urlsToCheck) p w)
    as (j & evs & Htrace & _ & Hcleared & Hend).
  unfold handles_in_order.
  rewrite Htrace, armed_app, cleared_app, Hcleared, app_nil_r.
  destruct Hend as [(_ & Htimers & Hnext & Hevs) | (_ & Htimers & Hnext & Hevs)];
    rewrite Htimers, Hnext, Hevs.
  - rewrite app_nil_r. repeat split; assumption.
  - split; [rewrite Harmed, seq_S; reflexivity |].
    split; [exact Hnodup |].
    split; [| split].
    + intros h Hh. rewrite lookup_insert_ne; [apply Hgone, Hh |].
      specialize (Hold h Hh). lia.
    + intros h Hh. specialize (Hold h Hh). lia.
    + intros h Hh. destruct (decide (next_handle w = h)) as [<- | Hne]; [lia |].
      rewrite lookup_insert_ne in Hh by exact Hne. specialize (Hset h Hh). lia.
Qed.

Lemma resume_handles (h : nat) (c : closure) (w : world) :
  timers w !! h = Some c ->
  handles_in_order w ->
  handles_in_order (resume h c w).
Proof.
  intros Hh (Harmed & Hnodup & Hgone & Hold & Hset).
  unfold handles_in_order, resume. simpl.
  rewrite armed_app, cleared_app. simpl. rewrite app_nil_r.
  split; [exact Harmed |].
  split.
  - apply NoDup_app. split; [exact Hnodup |]. split; [| apply NoDup_singleton].
    intros h' Hcleared Hin. apply list_elem_of_singleton in Hin as ->.
    rewrite (Hgone h Hcleared) in Hh. discriminate.
  - split; [| split].
    + intros h' Hin. apply elem_of_app in Hin as [Hin | Hin].
      * destruct (decide (h = h')) as [<- | Hne]; [apply lookup_delete_eq |].
        rewrite lookup_delete_ne by exact Hne. apply Hgone, Hin.
      * apply list_elem_of_singleton in Hin as ->. apply lookup_delete_eq.
    + intros h' Hin. apply elem_of_app in Hin as [Hin | Hin]; [apply Hold, Hin |].
      apply list_elem_of_singleton in Hin as ->. apply Hset. eauto.
    + intros h' [c' Hc']. apply Hset.
      destruct (decide (h = h')) as [<- | Hne].
      * rewrite lookup_delete_eq in Hc'. discriminate.
      * rewrite lookup_delete_ne in Hc' by exact Hne. eauto.
Qed.

(** Between two turns of the event loop the loop is parked at some index
    and the handles are in order. *)
Lemma reachable_parked (cmd : command) (w : world) :
  reachable paint urlsToCheck engine clock cmd w ->
  (exists k, parked_at urlsToCheck cmd k w) /\ handles_in_order w.
Proof.
  unfold reachable. revert w.
  apply (rtc_ind_r (fun w => (exists k, parked_at urlsToCheck cmd k w)
                              /\ handles_in_order w)).
  - unfold main, action. split; [| apply doScript_handles; exact boot_handles].
    destruct (doScript_parks cmd 0 boot) as (k & _ & Hk & _);
      [reflexivity | reflexivity | lia |].
    exists k. exact Hk.
  - intros w1 w2 _ [h Hfires] [[k (Hdone & Hpark)] Hhandles].
    destruct Hfires as [w1 c Hc].
    destruct Hpark as [[_ Hnone] | (Hk & h0 & Htimers)].
    { rewrite Hnone, lookup_empty in Hc. discriminate. }
    rewrite Htimers in Hc. apply lookup_singleton_Some in Hc as [<- <-].
    destruct (checkTime_at (clock (clock_reads w1))) eqn:Hwindow; unfold exec.
    + rewrite onInterval_open by exact Hwindow. cbn [pausePoint closure_cmd].
      split.
      * destruct (doScript_parks cmd k (resume h0 (Closure k cmd) w1))
          as (k' & _ & Hk' & _).
        -- simpl. rewrite attempted_app, Hdone. apply app_nil_r.
        -- simpl. rewrite Htimers. apply delete_singleton_eq.
        -- lia.
        -- exists k'. exact Hk'.
      * apply doScript_handles, resume_handles; [| exact Hhandles].
        rewrite Htimers. apply lookup_singleton_eq.
    + rewrite onInterval_closed by exact Hwindow. cbn [snd].
      split; [exists k; split; [exact Hdone | right; eauto] | exact Hhandles].
Qed.

(** A turn of the event loop only adds to the trace. *)
Lemma turn_trace (w w' : world) :
  turn paint urlsToCheck engine clock w w' ->
  exists evs, trace w' = trace w ++ evs.
Proof.
  intros [h [w0 c _]].
  destruct (checkTime_at (clock (clock_reads w0))) eqn:Hwindow; unfold exec.
  - rewrite onInterval_open by exact Hwindow. unfold doScript.
    destruct (doScript_from_run (closure_cmd c)
                (drop (pausePoint c) urlsToCheck) (pausePoint c) (resume h c w0))
      as (j & evs & Htrace & _).
    unfold exec in Htrace. rewrite Htrace. simpl. rewrite <- app_assoc. eauto.
  - rewrite onInterval_closed by exact Hwindow. exists []. simpl.
    symmetry. apply app_nil_r.
Qed.

Lemma turns_trace (w w' : world) :
  rtc (turn paint urlsToCheck engine clock) w w' ->
  exists evs, trace w' = trace w ++ evs.
Proof.
  induction 1 as [w | w1 w2 w3 Hturn _ [evs' Hrest]].
  - exists []. symmetry. apply app_nil_r.
  - destruct (turn_trace _ _ Hturn) as [evs Hfirst].
    exists (evs ++ evs'). rewrite Hrest, Hfirst. symmetry. apply app_assoc.
Qed.

(** C4: between two turns of the event loop the first [k] URLs have been
    audited, three times each and in the order of the list, and nothing
    else has.  Either the list is finished, or the loop is suspended: one
    interval is set and holds [k], the index of the first URL that has not
    been audited.  The loop at index [k] outside the window suspends at
    [k] without an attempt; the interval that finds the window closed
    changes nothing; the interval that finds it open, and the loop after
    it, go on with URL [k] and park the loop further down the list. *)
Theorem resumes_at_suspended_index (cmd : command) (w : world) :
  reachable paint urlsToCheck engine clock cmd w ->
  exists k : nat,
    attempted (trace w) = thrice (take k urlsToCheck)
    /\ ((k = length urlsToCheck /\ timers w = ∅)
        \/ (k < length urlsToCheck
            /\ exists h : nat,
                 timers w = {[ h := Closure k cmd ]}
                 /\ (forall w0 : world,
                       checkTime_at (clock (clock_reads w0)) = false ->
                       exec (doScript paint urlsToCheck engine clock k cmd) w0
                         = suspend k cmd w0
                       /\ attempted
                            (effects (doScript paint urlsToCheck engine clock k cmd) w0)
                          = [])
                 /\ (checkTime_at (clock (clock_reads w)) = false ->
                     exec (onInterval paint urlsToCheck engine clock h (Closure k cmd)) w
                       = tick w)
                 /\ (checkTime_at (clock (clock_reads w)) = true ->
                     checkTime_at (clock (S (clock_reads w))) = true ->
                     exists k' : nat,
                       k < k'
                       /\ parked_at urlsToCheck cmd k'
                            (exec (onInterval paint urlsToCheck engine clock h
                                     (Closure k cmd)) w)))).
Proof.
  intros Hreach.
  destruct (reachable_parked cmd w Hreach) as [[k (Hdone & Hpark)] _].
  exists k. split; [exact Hdone |].
  destruct Hpark as [Hend | (Hk & h & Htimers)]; [left; exact Hend | right].
  split; [exact Hk |]. exists h. split; [exact Htimers |].
  split; [| split].
  - intros w0 Hclosed.
    destruct (drop k urlsToCheck) as [| url rest] eqn:Hdrop.
    { apply (f_equal length) in Hdrop. rewrite length_drop in Hdrop.
      simpl in Hdrop. lia. }
    assert (Hexec : exec (doScript paint urlsToCheck engine clock k cmd) w0
                    = suspend k cmd w0).
    { unfold exec, doScript. rewrite Hdrop.
      rewrite doScript_from_closed by exact Hclosed. reflexivity. }
    split; [exact Hexec |].
    unfold effects. rewrite Hexec. simpl. rewrite drop_app_length. reflexivity.
  - intros Hclosed. unfold exec. rewrite onInterval_closed by exact Hclosed.
    reflexivity.
  - intros Hopen Hopen'. unfold exec. rewrite onInterval_open by exact Hopen.
    cbn [pausePoint closure_cmd].
    destruct (doScript_parks cmd k (resume h (Closure k cmd) w))
      as (k' & _ & Hk' & Hprogress).
    + simpl. rewrite attempted_app, Hdone. apply app_nil_r.
    + simpl. rewrite Htimers. apply delete_singleton_eq.
    + lia.
    + exists k'. split; [apply Hprogress; [exact Hopen' | exact Hk] | exact Hk'].
Qed.

(** C8: interval handles are handed out in order, one per suspension, and
    no handle is ever cleared twice.  The callback of an interval that is
    set and finds the window closed changes nothing.  The one that finds
    it open clears its own interval, which had not been cleared before,
    and only then runs the loop; from then on, whatever turns follow,
    that interval is not set and cannot fire. *)
Theorem interval_resumes_once (cmd : command) (w : world) :
  reachable paint urlsToCheck engine clock cmd w ->
  armed (trace w) = seq 0 (next_handle w)
  /\ NoDup (cleared (trace w))
  /\ (forall h : nat,
        h ∈ cleared (trace w) ->
        forall w' : world,
          rtc (turn paint urlsToCheck engine clock) w w' ->
          timers w' !! h = None
          /\ forall w'' : world, ~ fires paint urlsToCheck engine clock h w' w'')
  /\ (forall (h : nat) (c : closure),
        timers w !! h = Some c ->
        (h ∉ cleared (trace w))
        /\ (checkTime_at (clock (clock_reads w)) = false ->
            exec (onInterval paint urlsToCheck engine clock h c) w = tick w)
        /\ (checkTime_at (clock (clock_reads w)) = true ->
            exec (onInterval paint urlsToCheck engine clock h c) w
              = exec (doScript paint urlsToCheck engine clock
                        (pausePoint c) (closure_cmd c))
                  (resume h c w)
            /\ timers (resume h c w) !! h = None
            /\ cleared (trace (resume h c w)) = cleared (trace w) ++ [h])).
Proof.
  intros Hreach.
  destruct (reachable_parked cmd w Hreach)
    as [_ (Harmed & Hnodup & Hgone & _ & _)].
  split; [exact Harmed |]. split; [exact Hnodup |]. split.
  - intros h Hh w' Hturns.
    assert (Hreach' : reachable paint urlsToCheck engine clock cmd w').
    { unfold reachable in *. etrans; eassumption. }
    destruct (reachable_parked cmd w' Hreach') as [_ (_ & _ & Hgone' & _ & _)].
    destruct (turns_trace w w' Hturns) as [evs Hevs].
    assert (Hnone : timers w' !! h = None).
    { apply Hgone'. rewrite Hevs, cleared_app. apply elem_of_app. left. exact Hh. }
    split; [exact Hnone |].
    intros w'' Hfires. destruct Hfires as [w' c Hc]. congruence.
  - intros h c Hc. split; [| split].
    + intros Hh. rewrite (Hgone h Hh) in Hc. discriminate.
    + intros Hclosed. unfold exec. rewrite onInterval_closed by exact Hclosed.
      reflexivity.
    + intros Hopen. split; [| split].
      * unfold exec. rewrite onInterval_open by exact Hopen. reflexivity.
      * apply lookup_delete_eq.
      * simpl. rewrite cleared_app. reflexivity.
Qed.

End Loop.

(** *** Why a run of the loop can be taken in one go

    A run of the loop sets an interval, if it sets one at all, as its very
    last effect, and the callback of an interval clears it before it
    starts the loop again.  So no interval is set while a loop is
    running, and no callback can fall in between two of its effects. *)

Section OneGo.

Variable paint : style -> string -> string.
Variable engine : nat -> string -> outcome.
Variable clock : nat -> moment.

Lemma doScript_from_sets_interval_last (cmd : command) (rest : list string) :
  forall (i : nat) (w : world),
    timers (exec (doScript_from paint engine clock i rest cmd) w) = timers w
    \/ exists evs : list event,
         trace (exec (doScript_from paint engine clock i rest cmd) w)
         = trace w ++ evs ++ [SetInterval (next_handle w) 60000]
         /\ armed evs = [].
Proof.
  induction rest as [| url rest IH]; intros i w.
  - left. reflexivity.
  - destruct (checkTime_at (clock (clock_reads w))) eqn:Hwindow.
    + set (w1 := extend (tick w) 0 [ConsoleLog "It's a great time to run the script"]).
      set (batch := batch_effects paint url (storeLogs cmd)
                      (answers engine (audits_run w1) url)).
      assert (Hexec : exec (doScript_from paint engine clock i (url :: rest) cmd) w
                      = exec (doScript_from paint engine clock (S i) rest cmd)
                          (extend w1 3 batch)).
      { unfold exec, batch, w1. rewrite doScript_from_open by exact Hwindow.
        unfold exec. rewrite multipleTimes_run. reflexivity. }
      rewrite Hexec.
      destruct (IH (S i) (extend w1 3 batch)) as [Hsame | (evs & Htrace & Harmed)].
      * left. exact Hsame.
      * right.
        exists ([ConsoleLog "It's a great time to run the script"] ++ batch ++ evs).
        split.
        -- rewrite Htrace. simpl. rewrite <- !app_assoc. reflexivity.
        -- rewrite !armed_app, Harmed. unfold batch. rewrite armed_batch.
           reflexivity.
    + right. unfold exec. rewrite doScript_from_closed by exact Hwindow.
      exists [ConsoleLog "Terrible time to run the script"]. split; reflexivity.
Qed.

End OneGo.

(** *** The scenario started outside the window *)

Example suspended_trace :
  trace Scenario.suspended
  = [ConsoleLog "Terrible time to run the script"; SetInterval 0 60000]
  /\ timers Scenario.suspended !! 0 = Some (Closure 0 Scenario.cmd)
  /\ Scenario.still_suspended = tick Scenario.suspended.
Proof. vm_compute. repeat split. Qed.

Lemma still_suspended_reachable :
  reachable Scenario.plain Scenario.urls Scenario.engine Scenario.overnight
    Scenario.cmd Scenario.still_suspended.
Proof.
  unfold reachable. eapply rtc_l; [| apply rtc_refl].
  exists 0. apply fires_set. vm_compute. reflexivity.
Defined.

(** The interval set on Wednesday evening holds index 0; when it finds the
    window open on Thursday morning, the loop goes on from the first URL. *)
Lemma resumes_at_suspended_index_witness :
  exists k' : nat,
    0 < k' /\ parked_at Scenario.urls Scenario.cmd k' Scenario.resumed.
Proof.
  destruct (resumes_at_suspended_index Scenario.plain Scenario.urls Scenario.engine
              Scenario.overnight Scenario.cmd Scenario.still_suspended
              still_suspended_reachable)
    as (k & _ & [[_ Hnone] | (_ & h & Htimers & _ & _ & Hresume)]).
  - assert (Hset : timers Scenario.still_suspended !! 0
                   = Some (Closure 0 Scenario.cmd))
      by (vm_compute; reflexivity).
    rewrite Hnone, lookup_empty in Hset. discriminate.
  - assert (Hset : timers Scenario.still_suspended !! 0
                   = Some (Closure 0 Scenario.cmd))
      by (vm_compute; reflexivity).
    rewrite Htimers in Hset. apply lookup_singleton_Some in Hset as [-> Hk].
    injection Hk as ->.
    apply Hresume; reflexivity.
Defined.

(** On Thursday morning the callback clears interval 0, once, before the
    loop runs again; interval 0 is not set after that. *)
Lemma interval_resumes_once_witness :
  Scenario.resumed
  = exec (doScript Scenario.plain Scenario.urls Scenario.engine Scenario.overnight
            0 Scenario.cmd)
      (resume 0 (Closure 0 Scenario.cmd) Scenario.still_suspended)
  /\ timers (resume 0 (Closure 0 Scenario.cmd) Scenario.still_suspended) !! 0 = None
  /\ cleared (trace (resume 0 (Closure 0 Scenario.cmd) Scenario.still_suspended))
     = [0].
Proof.
  destruct (interval_resumes_once Scenario.plain Scenario.urls Scenario.engine
              Scenario.overnight Scenario.cmd Scenario.still_suspended
              still_suspended_reachable)
    as (_ & _ & _ & Hfire).
  destruct (Hfire 0 (Closure 0 Scenario.cmd)) as (_ & _ & Hopen).
  - vm_compute. reflexivity.
  - destruct (Hopen eq_refl) as (Hexec & Hnone & Hcleared).
    split; [exact Hexec |]. split; [exact Hnone |].
    rewrite Hcleared. reflexivity.
Defined.
Example scenario_in_office_hours :
  attempted (trace (exec (main Scenario.plain Scenario.urls Scenario.engine
                            Scenario.office_hours Scenario.cmd) boot))
  = ["a.example"; "a.example"; "a.example"; "b.example"; "b.example"; "b.example"].
Proof. reflexivity. Qed.

Example scenario_rows :
  (fun r => (field "site" r, field "type" r)) <$>
  written (trace (exec (main Scenario.plain Scenario.urls Scenario.engine
                            Scenario.office_hours Scenario.cmd) boot))
  = [ (Some "a.example", Some "PARTIAL"); (Some "a.example", Some "PARTIAL");
      (Some "a.example", Some "PARTIAL"); (Some "a.example", Some "GMEAN");
      (Some "b.example", Some "Error: site not loaded");
      (Some "b.example", Some "Error: site not loaded");
      (Some "b.example", Some "Error: site not loaded") ].
Proof. reflexivity. Qed.

Example scenario_finished :
  timers (exec (main Scenario.plain Scenario.urls Scenario.engine
                  Scenario.office_hours Scenario.cmd) boot) = ∅.
Proof. reflexivity. Qed.

(** *** The shape of the aggregate *)




Section AggregateBounds.

Local Open Scope R_scope.

Lemma ln_le_compat (a x : R) : 0 < a -> a <= x -> ln a <= ln x.
Proof.
  intros Ha [Hlt | ->]; [| lra]. left. apply ln_increasing; assumption.
Qed.

Lemma exp_le_compat (x y : R) : x <= y -> exp x <= exp y.
Proof.
  intros [Hlt | ->]; [| lra]. left. apply exp_increasing, Hlt.
Qed.

Lemma Rsum_bounds (lo hi : R) (ys : list R) :
  Forall (fun y => lo <= y <= hi) ys ->
  INR (length ys) * lo <= Rsum ys <= INR (length ys) * hi.
Proof.
  induction 1 as [| y ys Hy _ IH].
  - simpl. lra.
  - change (Rsum (y :: ys)) with (y + Rsum ys).
    change (length (y :: ys)) with (S (length ys)). rewrite S_INR. lra.
Qed.

Lemma mean_bounds (lo hi : R) (ys : list R) :
  ys <> [] ->
  Forall (fun y => lo <= y <= hi) ys ->
  lo <= mean ys <= hi.
Proof.
  intros Hne Hys. pose proof (Rsum_bounds lo hi ys Hys) as [Hlo Hhi].
  assert (Hn : 0 < INR (length ys)).
  { apply lt_0_INR. destruct ys; [contradiction | simpl; lia]. }
  unfold mean. split.
  - apply Rmult_le_reg_r with (r := INR (length ys)); [exact Hn |].
    unfold Rdiv. rewrite Rmult_assoc, Rinv_l by lra. lra.
  - apply Rmult_le_reg_r with (r := INR (length ys)); [exact Hn |].
    unfold Rdiv. rewrite Rmult_assoc, Rinv_l by lra. lra.
Qed.

(** The geometric mean of numbers between [a] and [b] lies between [a] and
    [b]. *)
Lemma computeGmean_bounds (a b : R) (xs : list R) :
  xs <> [] ->
  0 < a ->
  Forall (fun x => a <= x <= b) xs ->
  a <= computeGmean xs <= b.
Proof.
  intros Hne Ha Hxs.
  assert (Hb : 0 < b).
  { destruct xs as [| x xs]; [contradiction |].
    apply Forall_cons in Hxs as [Hx _]. lra. }
  assert (Hln : ln a <= mean (ln <$> xs) <= ln b).
  { apply mean_bounds.
    - destruct xs; [contradiction | discriminate].
    - apply Forall_fmap. eapply Forall_impl; [exact Hxs |].
      intros x [Hax Hxb]. simpl. split; apply ln_le_compat; lra. }
  rewrite computeGmean_positive
    by (eapply Forall_impl; [exact Hxs |]; intros x [Hax _]; simpl; lra).
  split.
  - apply Rle_trans with (exp (ln a)); [rewrite exp_ln by exact Ha; lra |].
    apply exp_le_compat, Hln.
  - apply Rle_trans with (exp (ln b)); [| rewrite exp_ln by exact Hb; lra].
    apply exp_le_compat, Hln.
Qed.

(** X2: when the values of a field over a batch that is not empty all lie
    between [a] and [b], with [a] positive, the entry of that field in
    the aggregate lies between [a] and [b] too: the aggregate of scores
    that are at most 1 is at most 1. *)
Theorem aggregate_within_bounds (batch : list (gmap string R)) (metric : string)
    (a b : R) :
  batch <> [] ->
  0 < a ->
  (forall r, r ∈ batch -> exists x, r !! metric = Some x /\ a <= x <= b) ->
  exists g : R, gmeanOf batch !! metric = Some g /\ a <= g <= b.
Proof.
  intros Hne Ha Hin.
  assert (Hpos : forall r, r ∈ batch -> exists x, r !! metric = Some x /\ 0 < x).
  { intros r Hr. destruct (Hin r Hr) as (x & Hx & Hax & _).
    exists x. split; [exact Hx | lra]. }
  exists (computeGmean (valuesOfMetric batch metric)). split.
  - rewrite lookup_gmeanOf, decide_True by (apply head_has_metric; assumption).
    reflexivity.
  - apply computeGmean_bounds; [| exact Ha |].
    + destruct batch; [contradiction | discriminate].
    + unfold valuesOfMetric. apply Forall_fmap, Forall_forall. intros r Hr.
      destruct (Hin r Hr) as (x & Hx & Hbounds).
      simpl. unfold prop. rewrite Hx. exact Hbounds.
Qed.

Lemma Rsum_replicate (n : nat) (y : R) : Rsum (replicate n y) = INR n * y.
Proof.
  induction n as [| n IH].
  - simpl. lra.
  - change (Rsum (replicate (S n) y)) with (y + Rsum (replicate n y)).
    rewrite IH, S_INR. lra.
Qed.

Lemma computeGmean_replicate (n : nat) (x : R) :
  0 < x -> computeGmean (replicate (S n) x) = x.
Proof.
  intros Hx. rewrite computeGmean_positive by (apply Forall_replicate, Hx).
  unfold mean.
  rewrite fmap_replicate, Rsum_replicate, length_replicate.
  assert (Hn : 0 < INR (S n)) by (apply lt_0_INR; lia).
  replace (INR (S n) * ln x / INR (S n)) with (ln x) by (field; lra).
  apply exp_ln, Hx.
Qed.

(** X3: the aggregate of a batch made of the same sample several times, a
    sample whose values are all positive, is that sample. *)
Theorem aggregate_of_equal_samples (n : nat) (r : gmap string R) :
  (forall k x, r !! k = Some x -> 0 < x) ->
  gmeanOf (replicate (S n) r) = r.
Proof.
  intros Hpos. apply map_eq. intros k.
  rewrite lookup_gmeanOf. simpl.
  destruct (r !! k) as [x |] eqn:Hk.
  - rewrite decide_True by eauto.
    unfold valuesOfMetric. rewrite fmap_replicate.
    unfold prop. rewrite Hk. simpl. f_equal.
    apply computeGmean_replicate. eauto.
  - rewrite decide_False; [reflexivity |]. intros [x Hx]. discriminate.
Qed.

End AggregateBounds.

(** Scores of 0.5 and 0.9 aggregate to a score between 0.5 and 0.9. *)
Lemma aggregate_within_bounds_witness :
  exists g : R,
    gmeanOf [ {[ "performanceScore" := 0.5%R ]}; {[ "performanceScore" := 0.9%R ]} ]
      !! "performanceScore" = Some g
    /\ (0.5 <= g <= 0.9)%R.
Proof.
  apply aggregate_within_bounds.
  - discriminate.
  - lra.
  - intros r Hr. apply elem_of_cons in Hr as [-> | Hr].
    + exists 0.5%R. split; [apply lookup_singleton_eq | lra].
    + apply list_elem_of_singleton in Hr as ->.
      exists 0.9%R. split; [apply lookup_singleton_eq | lra].
Defined.

(** Three audits with the same score of 0.9 aggregate to 0.9. *)
Lemma aggregate_of_equal_samples_witness :
  gmeanOf (replicate 3 ({[ "performanceScore" := 0.9%R ]} : gmap string R))
  = {[ "performanceScore" := 0.9%R ]}.
Proof.
  apply (aggregate_of_equal_samples 2).
  intros k x Hk. apply lookup_singleton_Some in Hk as [_ <-]. lra.
Defined.

(** *** The loop as a function of the clock *)


Lemma open_run_le (clock : nat -> moment) (len n : nat) : open_run clock n len <= len.
Proof.
  revert n. induction len as [| len IH]; intros n; simpl; [lia |].
  destruct (checkTime_at (clock n)); [specialize (IH (S n)) |]; lia.
Qed.


Section LoopByClock.

Variable paint : style -> string -> string.
Variable urlsToCheck : list string.
Variable engine : nat -> string -> outcome.
Variable clock : nat -> moment.

(** A run of the loop audits the URLs one after the other for as long as
    the readings of the clock, one per URL, find the window open. *)
Lemma doScript_from_by_clock (cmd : command) (rest : list string) :
  forall (i : nat) (w : world),
  exists evs : list event,
    trace (exec (doScript_from paint engine clock i rest cmd) w) = trace w ++ evs
    /\ attempted evs
       = thrice (take (open_run clock (clock_reads w) (length rest)) rest)
    /\ audits_run (exec (doScript_from paint engine clock i rest cmd) w)
       = 3 * open_run clock (clock_reads w) (length rest) + audits_run w
    /\ (if open_run clock (clock_reads w) (length rest) <? length rest
        then clock_reads (exec (doScript_from paint engine clock i rest cmd) w)
             = S (open_run clock (clock_reads w) (length rest)) + clock_reads w
             /\ timers (exec (doScript_from paint engine clock i rest cmd) w)
                = <[next_handle w
                    := Closure (i + open_run clock (clock_reads w) (length rest)) cmd]>
                    (timers w)
        else clock_reads (exec (doScript_from paint engine clock i rest cmd) w)
             = open_run clock (clock_reads w) (length rest) + clock_reads w
             /\ timers (exec (doScript_from paint engine clock i rest cmd) w)
                = timers w).
Proof.
  induction rest as [| url rest IH]; intros i w.
  - exists []. simpl. rewrite app_nil_r. repeat split.
  - cbn [length open_run].
    destruct (checkTime_at (clock (clock_reads w))) eqn:Hwindow.
    + set (w1 := extend (tick w) 0 [ConsoleLog "It's a great time to run the script"]).
      set (batch := batch_effects paint url (storeLogs cmd)
                      (answers engine (audits_run w1) url)).
      assert (Hexec : exec (doScript_from paint engine clock i (url :: rest) cmd) w
                      = exec (doScript_from paint engine clock (S i) rest cmd)
                          (extend w1 3 batch)).
      { unfold exec, batch, w1. rewrite doScript_from_open by exact Hwindow.
        unfold exec. rewrite multipleTimes_run. reflexivity. }
      rewrite Hexec.
      destruct (IH (S i) (extend w1 3 batch))
        as (evs & Htrace & Hattempted & Haudits & Hrest).
      change (clock_reads (extend w1 3 batch)) with (S (clock_reads w)) in *.
      change (audits_run (extend w1 3 batch)) with (3 + audits_run w) in *.
      change (timers (extend w1 3 batch)) with (timers w) in *.
      change (next_handle (extend w1 3 batch)) with (next_handle w) in *.
      set (j := open_run clock (S (clock_reads w)) (length rest)) in *.
      exists ([ConsoleLog "It's a great time to run the script"] ++ batch ++ evs).
      split; [| split; [| split]].
      * rewrite Htrace. simpl. rewrite <- !app_assoc. reflexivity.
      * rewrite !attempted_app, Hattempted. unfold batch.
        rewrite attempted_batch. reflexivity.
      * rewrite Haudits. lia.
      * change (S j <? S (length rest)) with (j <? length rest).
        destruct (j <? length rest); destruct Hrest as [Hreads Htimers];
          rewrite Hreads, Htimers; split; try reflexivity; try lia.
        replace (i + S j) with (S i + j) by lia. reflexivity.
    + assert (Hexec : exec (doScript_from paint engine clock i (url :: rest) cmd) w
                      = suspend i cmd w).
      { unfold exec. rewrite doScript_from_closed by exact Hwindow. reflexivity. }
      rewrite Hexec.
      exists [ ConsoleLog "Terrible time to run the script";
               SetInterval (next_handle w) 60000 ].
      simpl. rewrite Nat.add_0_r. repeat split.
Qed.


End LoopByClock.

(** *** The window as a gate *)

Lemma open_readings_app (clock : nat -> moment) (n m : nat) :
  open_readings clock (n + m)
  = open_readings clock n
    + length (List.filter (fun i => checkTime_at (clock i)) (seq n m)).
Proof.
  unfold open_readings. rewrite seq_app, List.filter_app, length_app. reflexivity.
Qed.

Lemma open_readings_mono (clock : nat -> moment) (n m : nat) :
  n <= m -> open_readings clock n <= open_readings clock m.
Proof.
  intros Hle. replace m with (n + (m - n)) by lia.
  rewrite open_readings_app. lia.
Qed.

(** The open readings of a run are among the readings made. *)
Lemma open_run_counted (clock : nat -> moment) (len : nat) :
  forall n m : nat,
    open_run clock n len <= m ->
    open_run clock n len
    <= length (List.filter (fun i => checkTime_at (clock i)) (seq n m)).
Proof.
  induction len as [| len IH]; intros n m Hm; simpl in *; [lia |].
  destruct (checkTime_at (clock n)) eqn:Hwindow; [| lia].
  destruct m as [| m]; [lia |].
  simpl. rewrite Hwindow. simpl. specialize (IH (S n) m). lia.
Qed.

Lemma open_readings_none (clock : nat -> moment) (n : nat) :
  (forall i, i < n -> checkTime_at (clock i) = false) ->
  open_readings clock n = 0.
Proof.
  induction n as [| n IH]; intros Hclosed; [reflexivity |].
  replace (S n) with (n + 1) by lia. rewrite open_readings_app, IH.
  - simpl. rewrite Hclosed by lia. reflexivity.
  - intros i Hi. apply Hclosed. lia.
Qed.

Section Gate.

Variable paint : style -> string -> string.
Variable urlsToCheck : list string.
Variable engine : nat -> string -> outcome.
Variable clock : nat -> moment.

(** A run of [doScript] makes three attempts for each of its readings of
    the clock that found the window open, and no more. *)
Lemma doScript_gated (cmd : command) (p : nat) (w : world) :
  length (attempted (trace w)) <= 3 * open_readings clock (clock_reads w) ->
  length (attempted (trace (exec (doScript paint urlsToCheck engine clock p cmd) w)))
  <= 3 * open_readings clock
           (clock_reads (exec (doScript paint urlsToCheck engine clock p cmd) w)).
Proof.
  intros Hgate. unfold doScript.
  destruct (doScript_from_by_clock paint engine clock cmd (drop p urlsToCheck) p w)
    as (evs & Htrace & Hattempted & _ & Hrest).
  set (len := length (drop p urlsToCheck)) in *.
  set (j := open_run clock (clock_reads w) len) in *.
  assert (Hj : j <= len) by apply open_run_le.
  assert (Hlen : length (attempted evs) = 3 * j).
  { rewrite Hattempted. unfold thrice.
    rewrite (flat_map_constant_length (c := 3)) by reflexivity.
    rewrite length_take. fold len. lia. }
  rewrite Htrace, attempted_app, length_app, Hlen.
  assert (Hreads : exists m, j <= m
            /\ clock_reads (exec (doScript_from paint engine clock p
                                    (drop p urlsToCheck) cmd) w)
               = clock_reads w + m).
  { destruct (j <? len); destruct Hrest as [Hreads _]; rewrite Hreads;
      [exists (S j) | exists j]; split; lia. }
  destruct Hreads as (m & Hm & ->).
  rewrite open_readings_app.
  pose proof (open_run_counted clock len (clock_reads w) m Hm). fold j in H. lia.
Qed.

(** X6: between two turns of the event loop, the attempts made so far are
    at most three for each reading of the clock that found the window
    open.  So as long as no reading has found it open, no URL has been
    audited. *)
Theorem no_audit_without_an_open_reading (cmd : command) (w : world) :
  reachable paint urlsToCheck engine clock cmd w ->
  length (attempted (trace w)) <= 3 * open_readings clock (clock_reads w)
  /\ ((forall n, n < clock_reads w -> checkTime_at (clock n) = false) ->
      attempted (trace w) = []).
Proof.
  intros Hreach.
  assert (Hgate : length (attempted (trace w))
                  <= 3 * open_readings clock (clock_reads w)).
  { revert w Hreach. unfold reachable.
    apply (rtc_ind_r (fun w => length (attempted (trace w))
                               <= 3 * open_readings clock (clock_reads w))).
    - unfold main, action. apply doScript_gated. simpl. lia.
    - intros w1 w2 _ [h [w0 c _]] Hgate.
      destruct (checkTime_at (clock (clock_reads w0))) eqn:Hwindow; unfold exec.
      + rewrite onInterval_open by exact Hwindow. apply doScript_gated.
        simpl. rewrite attempted_app, app_nil_r.
        pose proof (open_readings_mono clock (clock_reads w0) (S (clock_reads w0))).
        lia.
      + rewrite onInterval_closed by exact Hwindow. simpl.
        pose proof (open_readings_mono clock (clock_reads w0) (S (clock_reads w0))).
        lia. }
  split; [exact Hgate |].
  intros Hclosed.
  assert (Hnone : open_readings clock (clock_reads w) = 0)
    by (apply open_readings_none, Hclosed).
  rewrite Hnone in Hgate. destruct (attempted (trace w)); [reflexivity |].
  simpl in Hgate. lia.
Qed.


End Gate.


(** The scenario on Wednesday evening, after the interval has fired once:
    both readings found the window closed and nothing has been audited. *)
Lemma no_audit_without_an_open_reading_witness :
  attempted (trace Scenario.still_suspended) = [].
Proof.
  destruct (no_audit_without_an_open_reading Scenario.plain Scenario.urls
              Scenario.engine Scenario.overnight Scenario.cmd
              Scenario.still_suspended still_suspended_reachable)
    as [_ Hnone].
  apply Hnone. intros n Hn.
  change (clock_reads Scenario.still_suspended) with 2 in Hn.
  destruct n as [| [| n]]; [reflexivity | reflexivity | lia].
Defined.

(** *** What a trace is made of *)

Section Segments.

Variable paint : style -> string -> string.
Variable urlsToCheck : list string.
Variable engine : nat -> string -> outcome.
Variable clock : nat -> moment.

(** The effects of a run of the loop over URLs of the list are segments. *)
Lemma doScript_from_segments (cmd : command) (rest : list string) :
  (forall u, u ∈ rest -> u ∈ urlsToCheck) ->
  forall (i : nat) (w : world),
  exists segs : list (list event),
    Forall (segment paint urlsToCheck (storeLogs cmd)) segs
    /\ trace (exec (doScript_from paint engine clock i rest cmd) w)
       = trace w ++ concat segs.
Proof.
  induction rest as [| url rest IH]; intros Hin i w.
  - exists []. split; [constructor | simpl; symmetry; apply app_nil_r].
  - destruct (checkTime_at (clock (clock_reads w))) eqn:Hwindow.
    + set (w1 := extend (tick w) 0 [ConsoleLog "It's a great time to run the script"]).
      set (os := answers engine (audits_run w1) url).
      assert (Hexec : exec (doScript_from paint engine clock i (url :: rest) cmd) w
                      = exec (doScript_from paint engine clock (S i) rest cmd)
                          (extend w1 3 (batch_effects paint url (storeLogs cmd) os))).
      { unfold exec, os, w1. rewrite doScript_from_open by exact Hwindow.
        unfold exec. rewrite multipleTimes_run. reflexivity. }
      rewrite Hexec.
      destruct (IH (fun u Hu => Hin u (list_elem_of_further _ _ _ Hu)) (S i)
                  (extend w1 3 (batch_effects paint url (storeLogs cmd) os)))
        as (segs & Hsegs & Htrace).
      exists ([ConsoleLog "It's a great time to run the script"]
                :: batch_effects paint url (storeLogs cmd) os :: segs).
      split.
      * constructor; [apply segment_line |].
        constructor; [| exact Hsegs].
        apply segment_batch; [apply Hin; left | reflexivity].
      * rewrite Htrace. simpl. rewrite <- !app_assoc. reflexivity.
    + assert (Hexec : exec (doScript_from paint engine clock i (url :: rest) cmd) w
                      = suspend i cmd w).
      { unfold exec. rewrite doScript_from_closed by exact Hwindow. reflexivity. }
      rewrite Hexec.
      exists [ [ConsoleLog "Terrible time to run the script"];
               [SetInterval (next_handle w) 60000] ].
      split; [| reflexivity].
      constructor; [apply segment_line |].
      constructor; [apply segment_set | constructor].
Qed.

Lemma doScript_segments (cmd : command) (p : nat) (w : world) :
  exists segs : list (list event),
    Forall (segment paint urlsToCheck (storeLogs cmd)) segs
    /\ trace (exec (doScript paint urlsToCheck engine clock p cmd) w)
       = trace w ++ concat segs.
Proof.
  unfold doScript. apply doScript_from_segments.
  intros u Hu. exact (sublist_subseteq _ _ (sublist_drop urlsToCheck p) u Hu).
Qed.

(** Every trace of the program is a sequence of segments. *)
Lemma reachable_segments (cmd : command) (w : world) :
  reachable paint urlsToCheck engine clock cmd w ->
  exists segs : list (list event),
    Forall (segment paint urlsToCheck (storeLogs cmd)) segs
    /\ trace w = concat segs.
Proof.
  intros Hreach. revert w Hreach. unfold reachable.
  apply (rtc_ind_r (fun w => exists segs,
                      Forall (segment paint urlsToCheck (storeLogs cmd)) segs
                      /\ trace w = concat segs)).
  - unfold main, action.
    destruct (doScript_segments cmd 0 boot) as (segs & Hsegs & Htrace).
    exists segs. split; [exact Hsegs | exact Htrace].
  - intros w1 w2 Hreach [h Hfires] (segs & Hsegs & Htrace).
    destruct (reachable_parked paint urlsToCheck engine clock cmd w1 Hreach)
      as [[k (_ & Hpark)] _].
    destruct Hfires as [w1 c Hc].
    destruct Hpark as [[_ Hnone] | (_ & h0 & Htimers)].
    { rewrite Hnone in Hc. discriminate. }
    rewrite Htimers in Hc. apply lookup_singleton_Some in Hc as [<- <-].
    destruct (checkTime_at (clock (clock_reads w1))) eqn:Hwindow; unfold exec.
    + rewrite onInterval_open by exact Hwindow. cbn [pausePoint closure_cmd].
      destruct (doScript_segments cmd k (resume h0 (Closure k cmd) w1))
        as (segs' & Hsegs' & Htrace').
      exists (segs ++ [ClearInterval h0]
                :: [ConsoleLog ("script resumed at:  " +:+ pretty k)] :: segs').
      split.
      * apply Forall_app. split; [exact Hsegs |].
        constructor; [apply segment_clear |].
        constructor; [apply segment_line | exact Hsegs'].
      * unfold exec in Htrace'. rewrite Htrace'. simpl. rewrite Htrace.
        rewrite concat_app. simpl. rewrite <- !app_assoc. reflexivity.
    + rewrite onInterval_closed by exact Hwindow. simpl.
      exists segs. split; [exact Hsegs | exact Htrace].
Qed.

(** A property of traces that holds of the empty trace and of every
    segment, and that is kept by putting two traces one after the other,
    holds of every trace of the program. *)
Lemma reachable_trace_ind (cmd : command) (P : list event -> Prop) :
  P [] ->
  (forall t1 t2, P t1 -> P t2 -> P (t1 ++ t2)) ->
  (forall seg, segment paint urlsToCheck (storeLogs cmd) seg -> P seg) ->
  forall w, reachable paint urlsToCheck engine clock cmd w -> P (trace w).
Proof.
  intros Hnil Happ Hseg w Hreach.
  destruct (reachable_segments cmd w Hreach) as (segs & Hsegs & ->).
  induction Hsegs as [| seg segs Hs _ IH]; simpl; [exact Hnil |].
  apply Happ; [apply Hseg, Hs | exact IH].
Qed.

End Segments.

Lemma rows_attempt (paint : style -> string -> string) (k : kind) (url : string)
    (storeLogs : bool) (o : outcome) :
  rows k (attempt_effects paint url storeLogs o)
  = match k, o with
    | kind_partial, Resolved _ => 1
    | kind_error, Rejected _ => 1
    | _, _ => 0
    end.
Proof.
  unfold rows, written.
  destruct o, storeLogs, k; reflexivity.
Qed.

Lemma rows_aggregate (paint : style -> string -> string) (k : kind) (url : string)
    (rs : list (gmap string R)) :
  rows k (aggregate_effects paint url rs)
  = match k with
    | kind_aggregate => if (0 <? length rs)%nat then 1 else 0
    | _ => 0
    end.
Proof.
  unfold rows, written, aggregate_effects.
  destruct (0 <? length rs)%nat, k; reflexivity.
Qed.

Section Pieces.

Variable paint : style -> string -> string.
Variable urlsToCheck : list string.
Variable engine : nat -> string -> outcome.
Variable clock : nat -> moment.

(** The same, down to the attempts and the aggregation of a batch. *)
Lemma reachable_pieces_ind (cmd : command) (P : list event -> Prop) :
  P [] ->
  (forall t1 t2, P t1 -> P t2 -> P (t1 ++ t2)) ->
  (forall line, P [ConsoleLog line]) ->
  (forall h, P [SetInterval h 60000]) ->
  (forall h, P [ClearInterval h]) ->
  (forall url o, url ∈ urlsToCheck ->
                 P (attempt_effects paint url (storeLogs cmd) o)) ->
  (forall url rs, url ∈ urlsToCheck -> P (aggregate_effects paint url rs)) ->
  forall w, reachable paint urlsToCheck engine clock cmd w -> P (trace w).
Proof.
  intros Hnil Happ Hline Hset Hclear Hattempt Haggregate.
  apply reachable_trace_ind; [exact Hnil | exact Happ |].
  intros seg [line | h | h | url os Hurl _]; auto.
  unfold batch_effects. apply Happ; [| apply Haggregate, Hurl].
  induction os as [| o os IH]; [exact Hnil |].
  rewrite fmap_cons. cbn [concat]. apply Happ; [apply Hattempt, Hurl | exact IH].
Qed.



(** X9: the callback of [logError] fails every time: the trace holds one
    unhandled rejection, the ReferenceError for [r], for every error row,
    and no other. *)
Theorem one_rejection_per_error_row (cmd : command) (w : world) :
  reachable paint urlsToCheck engine clock cmd w ->
  rejections (trace w)
  = replicate (rows kind_error (trace w)) "ReferenceError: r is not defined".
Proof.
  revert w.
  apply (reachable_pieces_ind cmd
           (fun t => rejections t
                     = replicate (rows kind_error t)
                         "ReferenceError: r is not defined"));
    try reflexivity.
  - intros t1 t2 H1 H2. rewrite rejections_app, rows_app, replicate_add, H1, H2.
    reflexivity.
  - intros url o _. rewrite rows_attempt. destruct o, (storeLogs cmd); reflexivity.
  - intros url rs _. rewrite rows_aggregate. unfold aggregate_effects.
    destruct (0 <? length rs)%nat; reflexivity.
Qed.

(** X10: assets are saved once for every attempt that succeeded when the
    program runs with the option to store logs, and never without it. *)
Theorem assets_saved_on_request_only (cmd : command) (w : world) :
  reachable paint urlsToCheck engine clock cmd w ->
  length (saved (trace w))
  = if storeLogs cmd then rows kind_partial (trace w) else 0.
Proof.
  revert w.
  apply (reachable_pieces_ind cmd
           (fun t => length (saved t)
                     = if storeLogs cmd then rows kind_partial t else 0)).
  - destruct (storeLogs cmd); reflexivity.
  - intros t1 t2 H1 H2. rewrite saved_app, length_app, rows_app, H1, H2.
    destruct (storeLogs cmd); reflexivity.
  - intros line. destruct (storeLogs cmd); reflexivity.
  - intros h. destruct (storeLogs cmd); reflexivity.
  - intros h. destruct (storeLogs cmd); reflexivity.
  - intros url o _. rewrite rows_attempt. destruct o, (storeLogs cmd); reflexivity.
  - intros url rs _. rewrite rows_aggregate. unfold aggregate_effects.
    destruct (0 <? length rs)%nat, (storeLogs cmd); reflexivity.
Qed.

End Pieces.

Lemma finished_reachable :
  reachable Scenario.plain Scenario.urls Scenario.engine Scenario.office_hours
    Scenario.cmd Morning.finished.
Proof. apply rtc_refl. Defined.

Lemma finished_storing_reachable :
  reachable Scenario.plain Scenario.urls Scenario.engine Scenario.office_hours
    Morning.storing Morning.finished_storing.
Proof. apply rtc_refl. Defined.



(** The scenario run to its end: three error rows, three rejections. *)
Lemma one_rejection_per_error_row_witness :
  rejections (trace Morning.finished)
  = [ "ReferenceError: r is not defined"; "ReferenceError: r is not defined";
      "ReferenceError: r is not defined" ].
Proof.
  rewrite (one_rejection_per_error_row _ _ _ _ _ _ finished_reachable). reflexivity.
Defined.

(** The scenario run to its end with the option to store logs: assets are
    saved for the three attempts that succeeded. *)
Lemma assets_saved_on_request_only_witness :
  length (saved (trace Morning.finished_storing)) = 3
  /\ length (saved (trace Morning.finished)) = 0.
Proof.
  split.
  - rewrite (assets_saved_on_request_only _ _ _ _ _ _ finished_storing_reachable).
    reflexivity.
  - rewrite (assets_saved_on_request_only _ _ _ _ _ _ finished_reachable).
    reflexivity.
Defined.

(** *** One interval at a time *)

Lemma intervals_app (t1 t2 : list event) :
  intervals (t1 ++ t2) = intervals t1 ++ intervals t2.
Proof. apply omap_app. Qed.

Lemma intervals_of_armed (evs : list event) :
  cleared evs = [] -> intervals evs = (fun h => (true, h)) <$> armed evs.
Proof.
  induction evs as [| e evs IH]; intros Hcleared; [reflexivity |].
  destruct e; try (apply IH, Hcleared).
  - change (intervals (SetInterval handle ms :: evs))
      with ((true, handle) :: intervals evs).
    rewrite IH by exact Hcleared. reflexivity.
  - discriminate.
Qed.

Lemma one_by_one_S (n : nat) : one_by_one (S n) = one_by_one n ++ [(true, n); (false, n)].
Proof.
  unfold one_by_one. rewrite seq_S, flat_map_app. simpl. reflexivity.
Qed.

Section OneInterval.

Variable paint : style -> string -> string.
Variable urlsToCheck : list string.
Variable engine : nat -> string -> outcome.
Variable clock : nat -> moment.

Lemma doScript_intervals (cmd : command) (p : nat) (w : world) :
  timers w = ∅ ->
  intervals (trace w) = one_by_one (next_handle w) ->
  (timers (exec (doScript paint urlsToCheck engine clock p cmd) w) = ∅
   /\ intervals (trace (exec (doScript paint urlsToCheck engine clock p cmd) w))
      = one_by_one (next_handle (exec (doScript paint urlsToCheck engine clock p cmd) w)))
  \/ (exists (h : nat) (c : closure),
        timers (exec (doScript paint urlsToCheck engine clock p cmd) w) = {[ h := c ]}
        /\ next_handle (exec (doScript paint urlsToCheck engine clock p cmd) w) = S h
        /\ intervals (trace (exec (doScript paint urlsToCheck engine clock p cmd) w))
           = one_by_one h ++ [(true, h)]).
Proof.
  intros Hnone Hsofar. unfold doScript.
  destruct (doScript_from_run paint engine clock cmd (drop p urlsToCheck) p w)
    as (j & evs & Htrace & _ & Hcleared & Hend).
  rewrite Htrace, intervals_app, (intervals_of_armed evs Hcleared), Hsofar.
  destruct Hend as [(_ & Htimers & Hnext & Harmed) | (_ & Htimers & Hnext & Harmed)];
    rewrite Htimers, Hnext, Harmed, Hnone.
  - left. split; [reflexivity | apply app_nil_r].
  - right. exists (next_handle w), (Closure (p + j) cmd).
    split; [apply insert_empty | split; reflexivity].
Qed.

(** X12: intervals are set and cleared one by one.  Between two turns of
    the event loop the intervals set and cleared so far are interval 0
    set, interval 0 cleared, interval 1 set, interval 1 cleared and so
    on; either all of them have been cleared and none is set, or the last
    one has not been cleared and is the only one that is set. *)
Theorem intervals_one_by_one (cmd : command) (w : world) :
  reachable paint urlsToCheck engine clock cmd w ->
  (timers w = ∅ /\ intervals (trace w) = one_by_one (next_handle w))
  \/ (exists (h : nat) (c : closure),
        timers w = {[ h := c ]}
        /\ next_handle w = S h
        /\ intervals (trace w) = one_by_one h ++ [(true, h)]).
Proof.
  revert w. unfold reachable.
  apply (rtc_ind_r
           (fun w =>
              (timers w = ∅ /\ intervals (trace w) = one_by_one (next_handle w))
              \/ (exists (h : nat) (c : closure),
                    timers w = {[ h := c ]}
                    /\ next_handle w = S h
                    /\ intervals (trace w) = one_by_one h ++ [(true, h)]))).
  - unfold main, action. apply doScript_intervals; reflexivity.
  - intros w1 w2 _ [h Hfires] Hinv. destruct Hfires as [w1 c Hc].
    destruct Hinv as [[Hnone _] | (h1 & c1 & Htimers & Hnext & Hsofar)].
    { rewrite Hnone in Hc. discriminate. }
    rewrite Htimers in Hc. apply lookup_singleton_Some in Hc as [<- <-].
    destruct (checkTime_at (clock (clock_reads w1))) eqn:Hwindow; unfold exec.
    + rewrite onInterval_open by exact Hwindow. apply doScript_intervals.
      * simpl. rewrite Htimers. apply delete_singleton_eq.
      * simpl. rewrite intervals_app, Hsofar, Hnext, one_by_one_S, <- app_assoc.
        reflexivity.
    + rewrite onInterval_closed by exact Hwindow. simpl.
      right. exists h1, c1. auto.
Qed.

End OneInterval.

(** On Thursday morning of the scenario interval 0 has been set and
    cleared, and no interval is set. *)
Lemma intervals_one_by_one_witness :
  intervals (trace Scenario.resumed) = [(true, 0); (false, 0)]
  /\ timers Scenario.resumed = ∅.
Proof.
  assert (Hreach : reachable Scenario.plain Scenario.urls Scenario.engine
                     Scenario.overnight Scenario.cmd Scenario.resumed).
  { unfold reachable. eapply rtc_r; [apply still_suspended_reachable |].
    exists 0. apply fires_set. vm_compute. reflexivity. }
  assert (Hnext : next_handle Scenario.resumed = 1) by reflexivity.
  destruct (intervals_one_by_one _ _ _ _ _ _ Hreach)
    as [[Hnone Hall] | (h & c & _ & Hh & Hlast)].
  - rewrite Hall, Hnext. split; [reflexivity | exact Hnone].
  - rewrite Hnext in Hh. injection Hh as <-.
    assert (Hcount : length (intervals (trace Scenario.resumed)) = 2) by reflexivity.
    rewrite Hlast in Hcount. discriminate.
Defined.

(** *** Colours and the CSV file *)

Lemma silent_app (t1 t2 : list event) : silent (t1 ++ t2) = silent t1 ++ silent t2.
Proof. apply List.filter_app. Qed.

(** The record handed to the CSV writer is formatted without colours. *)
Lemma metricsRecord_paint (paint1 paint2 : style -> string -> string)
    (r : gmap string R) (url type : string) :
  metricsRecord paint1 r url type = metricsRecord paint2 r url type.
Proof. reflexivity. Qed.

Lemma silent_batch (paint1 paint2 : style -> string -> string) (url : string)
    (storeLogs : bool) (os : list outcome) :
  silent (batch_effects paint1 url storeLogs os)
  = silent (batch_effects paint2 url storeLogs os).
Proof.
  unfold batch_effects. rewrite !silent_app. f_equal.
  - induction os as [| o os IH]; [reflexivity |].
    rewrite !fmap_cons. cbn [concat]. rewrite !silent_app, IH. f_equal.
    destruct o, storeLogs; reflexivity.
  - unfold aggregate_effects. destruct (0 <? length (reports os))%nat; reflexivity.
Qed.

Section Colours.

Variable paint1 paint2 : style -> string -> string.
Variable urlsToCheck : list string.
Variable engine : nat -> string -> outcome.
Variable clock : nat -> moment.

Lemma doScript_from_same_but_lines (cmd : command) (rest : list string) :
  forall (i : nat) (w1 w2 : world),
    same_but_lines w1 w2 ->
    same_but_lines (exec (doScript_from paint1 engine clock i rest cmd) w1)
                   (exec (doScript_from paint2 engine clock i rest cmd) w2).
Proof.
  induction rest as [| url rest IH];
    intros i w1 w2 (Haudits & Hreads & Htimers & Hnext & Hsilent).
  - repeat split; assumption.
  - destruct (checkTime_at (clock (clock_reads w1))) eqn:Hwindow.
    + unfold exec.
      rewrite (doScript_from_open paint1) by exact Hwindow.
      rewrite (doScript_from_open paint2) by (rewrite <- Hreads; exact Hwindow).
      apply IH. unfold exec. rewrite !multipleTimes_run.
      unfold same_but_lines. simpl.
      rewrite Haudits, Hreads, Htimers, Hnext. repeat split.
      rewrite !silent_app, Hsilent. f_equal. apply silent_batch.
    + unfold exec.
      rewrite (doScript_from_closed paint1) by exact Hwindow.
      rewrite (doScript_from_closed paint2) by (rewrite <- Hreads; exact Hwindow).
      unfold same_but_lines. simpl.
      rewrite Haudits, Hreads, Htimers, Hnext. repeat split.
      rewrite !silent_app, Hsilent. reflexivity.
Qed.

(** X11: the colour functions change console lines and nothing else.
    Whatever world the program reaches with one set of them, it reaches
    with any other set a world with the same effects other than console
    lines, in the same order (the same rows in the CSV file among them),
    the same intervals set, and the same number of audits made and
    readings taken. *)
Theorem colours_change_lines_only (cmd : command) (w1 : world) :
  reachable paint1 urlsToCheck engine clock cmd w1 ->
  exists w2 : world,
    reachable paint2 urlsToCheck engine clock cmd w2
    /\ same_but_lines w1 w2
    /\ written (trace w1) = written (trace w2).
Proof.
  intros Hreach.
  assert (Hsim : exists w2, reachable paint2 urlsToCheck engine clock cmd w2
                            /\ same_but_lines w1 w2).
  { revert w1 Hreach. unfold reachable.
    apply (rtc_ind_r
             (fun w1 => exists w2,
                rtc (turn paint2 urlsToCheck engine clock)
                  (exec (main paint2 urlsToCheck engine clock cmd) boot) w2
                /\ same_but_lines w1 w2)).
    - eexists. split; [apply rtc_refl |].
      unfold main, action, doScript. apply doScript_from_same_but_lines.
      repeat split.
    - intros w1 w1' _ [h Hfires] (w2 & Hreach2 & Hsame).
      destruct Hfires as [w1 c Hc].
      pose proof Hsame as (Haudits & Hreads & Htimers & Hnext & Hsilent).
      exists (exec (onInterval paint2 urlsToCheck engine clock h c) w2). split.
      + eapply rtc_r; [exact Hreach2 |]. exists h. apply fires_set.
        rewrite <- Htimers. exact Hc.
      + destruct (checkTime_at (clock (clock_reads w1))) eqn:Hwindow; unfold exec.
        * rewrite (onInterval_open paint1) by exact Hwindow.
          rewrite (onInterval_open paint2) by (rewrite <- Hreads; exact Hwindow).
          unfold doScript. apply doScript_from_same_but_lines.
          unfold same_but_lines. simpl.
          rewrite Haudits, Hreads, Htimers, Hnext. repeat split.
          rewrite !silent_app, Hsilent. reflexivity.
        * rewrite (onInterval_closed paint1) by exact Hwindow.
          rewrite (onInterval_closed paint2) by (rewrite <- Hreads; exact Hwindow).
          unfold same_but_lines. simpl. rewrite Haudits, Hreads. repeat split;
            assumption. }
  destruct Hsim as (w2 & Hreach2 & Hsame).
  exists w2. split; [exact Hreach2 |]. split; [exact Hsame |].
  destruct Hsame as (_ & _ & _ & _ & Hsilent).
  assert (Hwritten : forall t, written t = written (silent t)).
  { induction t as [| e t IH]; [reflexivity |].
    destruct e; simpl; unfold written in *; simpl; rewrite <- ?IH; try reflexivity;
      exact IH. }
  rewrite (Hwritten (trace w1)), (Hwritten (trace w2)), Hsilent. reflexivity.
Qed.

End Colours.

(** The scenario run to its end with colour codes: the rows of the CSV
    file are those of the run without colours. *)
Lemma colours_change_lines_only_witness :
  exists w2 : world,
    reachable Morning.ansi Scenario.urls Scenario.engine Scenario.office_hours
      Scenario.cmd w2
    /\ written (trace Morning.finished) = written (trace w2).
Proof.
  destruct (colours_change_lines_only Scenario.plain Morning.ansi Scenario.urls
              Scenario.engine Scenario.office_hours Scenario.cmd Morning.finished
              finished_reachable)
    as (w2 & Hreach & _ & Hwritten).
  exists w2. split; [exact Hreach | exact Hwritten].
Defined.

(** *** The colour of a score *)

Section ScoreColours.

Local Open Scope R_scope.

Variable paint : style -> string -> string.








End ScoreColours.


(** *** Sizes *)

Section Sizes.

Local Open Scope R_scope.

Lemma Math_round_spec (x : R) : IZR (Math_round x) - / 2 <= x < IZR (Math_round x) + / 2.
Proof.
  unfold Math_round. destruct (base_Int_part (x + / 2)) as [Hle Hgt]. lra.
Qed.

(** A number from 0 to 999, padded with zeros, fills three columns and
    reads back as itself. *)
Lemma padded_group (n : Z) :
  (0 <= n < 1000)%Z ->
  String.length (padStart 3 "0" (show n)) = 3%nat
  /\ parseInt (padStart 3 "0" (show n)) = Some n.
Proof.
  intros Hn.
  assert (Hall : forallb
                   (fun k =>
                      Nat.eqb (String.length (padStart 3 "0" (show (Z.of_nat k)))) 3
                      && bool_decide (parseInt (padStart 3 "0" (show (Z.of_nat k)))
                                      = Some (Z.of_nat k)))
                   (seq 0 1000) = true) by (vm_compute; reflexivity).
  rewrite forallb_forall in Hall. specialize (Hall (Z.to_nat n)).
  rewrite Z2Nat.id in Hall by lia.
  apply andb_true_iff in Hall as [Hlen Hparse]; [| apply in_seq; lia].
  split; [apply Nat.eqb_eq, Hlen | apply bool_decide_eq_true in Hparse; exact Hparse].
Qed.

(** X14: [formatBytes] shows a size in whole kilobytes, rounded to the
    nearest (a half rounds up).  Below a thousand kilobytes it shows the
    number as it is; from a thousand on it shows the thousands, a comma
    and the rest on exactly three digits, which read back as the rest. *)
Theorem formatBytes_groups_thousands (bytes : R) :
  0 <= bytes ->
  (0 <= Math_round (bytes / 1000))%Z
  /\ IZR (Math_round (bytes / 1000)) * 1000 - 500 <= bytes
     < IZR (Math_round (bytes / 1000)) * 1000 + 500
  /\ ((Math_round (bytes / 1000) < 1000)%Z ->
      formatBytes bytes = show (Math_round (bytes / 1000)) +:+ " KB")
  /\ ((1000 <= Math_round (bytes / 1000))%Z ->
      exists rest : string,
        formatBytes bytes
        = show (Math_round (bytes / 1000) / 1000) +:+ "," +:+ rest +:+ " KB"
        /\ String.length rest = 3%nat
        /\ parseInt rest = Some (Math_round (bytes / 1000) mod 1000)%Z).
Proof.
  intros Hbytes.
  pose proof (Math_round_spec (bytes / 1000)) as [Hle Hlt].
  set (kiloBytes := Math_round (bytes / 1000)) in *.
  assert (Hkb : (0 <= kiloBytes)%Z).
  { assert (Hpos : -1 < IZR kiloBytes) by lra.
    apply lt_IZR in Hpos. lia. }
  split; [exact Hkb |]. split; [lra |].
  unfold formatBytes. fold kiloBytes. split.
  - intros Hsmall.
    rewrite Z.div_small by lia. rewrite Z.rem_small by lia. reflexivity.
  - intros Hlarge.
    assert (Hthousand : (kiloBytes / 1000 =? 0)%Z = false).
    { apply Z.eqb_neq. pose proof (Z.div_le_lower_bound kiloBytes 1000 1). lia. }
    rewrite Hthousand, Z.rem_mod_nonneg by lia.
    exists (padStart 3 "0" (show (kiloBytes mod 1000)%Z)).
    split; [reflexivity |].
    apply padded_group. apply Z.mod_pos_bound. lia.
Qed.

End Sizes.

(** A page of 1,234,567 bytes: one thousand, a comma, and three digits
    that read 235. *)
Lemma formatBytes_groups_thousands_witness :
  exists rest : string,
    formatBytes 1234567 = "1," +:+ rest +:+ " KB"
    /\ String.length rest = 3%nat
    /\ parseInt rest = Some 235%Z.
Proof.
  assert (Hbytes : (0 <= 1234567)%R) by lra.
  destruct (formatBytes_groups_thousands 1234567 Hbytes) as (_ & _ & _ & Hlarge).
  assert (Hkb : Math_round (1234567 / 1000) = 1235%Z).
  { unfold Math_round. apply Int_part_is. lra. }
  rewrite Hkb in Hlarge. destruct Hlarge as (rest & Hshown & Hlen & Hparse); [lia |].
  exists rest. split; [exact Hshown |]. split; [exact Hlen | exact Hparse].
Defined.

(** *** Durations *)












Lemma pretty_Z_of_nat (k : nat) : pretty (Z.of_nat k) = pretty k.
Proof. destruct k; reflexivity. Qed.

Lemma parseInt_pretty_Z (n : Z) : (0 <= n)%Z -> parseInt (pretty n) = Some n.
Proof.
  intros Hn. rewrite <- (Z2Nat.id n) by exact Hn.
  rewrite pretty_Z_of_nat. apply parseInt_pretty_nat.
Qed.




Section Durations.

Local Open Scope R_scope.


End Durations.


(** *** Weighted scores *)


Section WeightedScores.

Local Open Scope R_scope.





End WeightedScores.

